(** * OmniLedger / skipchain core: a shallow embedding

    The development follows the Go sources:

    - [omniledger/service/struct.go]: [collectionDB], [storeInColl], [Store],
      [tryHash];
    - the skipchain service ([ProposeSkipBlock], [updateNewSkipBlock],
      [GetUpdateChain], [verifyNewSkipBlock]).

    Go byte slices are [list byte]; a [nil] slice and an empty slice are both
    the empty list (the code only ever inspects their length and content).
    Go maps keyed by [string(id)] are finite maps keyed by the bytes of the
    id.  A Go function returning [(value, error)] returns a sum, errors on the
    left.  Objects reached through pointers are values; where the code
    changes an object that the service holds, the change is written back to
    the place it is held at. *)

From Stdlib Require Import ZArith.
From Stdlib.Strings Require Import Byte.
From stdpp Require Import base option list countable gmap fin_maps sorting.

Local Open Scope Z_scope.

(** ** Bytes as map keys *)

#[global] Instance byte_eq_dec : EqDecision byte := Byte.byte_eq_dec.

#[global] Instance byte_countable : Countable byte :=
  inj_countable Byte.to_N Byte.of_N Byte.of_to_N.

Abbreviation bytes := (list byte).

(** ** Errors

    Go [error] values.  The messages of [struct.go] and of the skipchain
    service are kept apart by constructor; [ErrColl] are the errors of the
    collection package and [ErrBolt] those of the bolt store. *)

Inductive collErr :=
  | KeyCollision   (* Add on a key that is present *)
  | KeyNotFound.   (* Set / Remove on a key that is absent *)

Inductive boltErr :=
  | DatabaseNotOpen
  | KeyRequired
  | KeyTooLarge
  | ValueTooLarge.

Inductive error :=
  | ErrColl (e : collErr)
  | ErrBolt (e : boltErr)
  | ErrInvalidStateAction          (* "invalid state action" *)
  | ErrLatestNotFound              (* "Couldn't find latest block." *)
  | ErrVerificationFailed          (* "Verification of proposed block failed." *)
  | ErrParentNotFound              (* "Didn't find parent of data" *)
  | ErrLatestSkipblockNotFound     (* "Couldn't find latest skipblock" *)
  | ErrMissingForward.             (* "Missing block in forward-chain" *)

(** ** The authenticated collection *)

Module Coll.

(** The three values stored under a key: value, contract id, darc id. *)
Record Record_ := mkRecord {
  rValue : bytes;
  rContractID : bytes;
  rDarcID : bytes;
}.

(** Modelled from the spec: the [collection] package is not part of the
    given sources.  A collection is the logical map from instance id to
    (value, contract-id, darc-id); [Add] needs a fresh key, [Set] and
    [Remove] need a present one, none of them touches the collection when
    it fails. *)
Abbreviation Collection := (gmap bytes Record_).

Definition Add (c : Collection) (k : bytes) (r : Record_) : error + Collection :=
  match c !! k with
  | Some _ => inl (ErrColl KeyCollision)
  | None => inr (<[k := r]> c)
  end.

Definition Set_ (c : Collection) (k : bytes) (r : Record_) : error + Collection :=
  match c !! k with
  | Some _ => inr (<[k := r]> c)
  | None => inl (ErrColl KeyNotFound)
  end.

Definition Remove (c : Collection) (k : bytes) : error + Collection :=
  match c !! k with
  | Some _ => inr (delete k c)
  | None => inl (ErrColl KeyNotFound)
  end.

End Coll.

Import Coll.

(** ** State changes *)

(** [StateAction] is a Go integer type; [OtherAction] stands for any value
    outside the three declared constants. *)
Inductive StateAction :=
  | Create
  | Update
  | Remove_
  | OtherAction (n : Z).

Record StateChange := mkStateChange {
  scAction : StateAction;
  InstanceID : bytes;
  ContractID : bytes;
  DarcID : bytes;
  Value : bytes;
}.

Definition sc_record (t : StateChange) : Record_ :=
  mkRecord (Value t) (ContractID t) (DarcID t).

(** [storeInColl] *)
Definition storeInColl (coll : Collection) (t : StateChange) : error + Collection :=
  match scAction t with
  | Create => Add coll (InstanceID t) (sc_record t)
  | Update => Set_ coll (InstanceID t) (sc_record t)
  | Remove_ => Remove coll (InstanceID t)
  | OtherAction _ => inl ErrInvalidStateAction
  end.

(** Applying a list of state changes in order, stopping at the first error. *)
Fixpoint storeAllInColl (coll : Collection) (ts : list StateChange) : error + Collection :=
  match ts with
  | [] => inr coll
  | t :: ts' =>
      match storeInColl coll t with
      | inl e => inl e
      | inr coll' => storeAllInColl coll' ts'
      end
  end.

(** ** The bolt bucket behind a collection *)

Module Bolt.

(** The database handle: whether it is open, and the content of the bucket
    named by [bucketName]. *)
Record DB := mkDB {
  opened : bool;
  bucket : gmap bytes bytes;
}.

Definition MaxKeySize : Z := 32768.
Definition MaxValueSize : Z := 2147483646.

(** [Bucket.Put] inside a writable transaction. *)
Definition Put (b : gmap bytes bytes) (k v : bytes) : error + gmap bytes bytes :=
  if decide (Z.of_nat (length k) = 0) then inl (ErrBolt KeyRequired)
  else if decide (MaxKeySize < Z.of_nat (length k)) then inl (ErrBolt KeyTooLarge)
  else if decide (MaxValueSize < Z.of_nat (length v)) then inl (ErrBolt ValueTooLarge)
  else inr (<[k := v]> b).

(** [Bucket.Delete]: deleting an absent key is not an error. *)
Definition Delete (b : gmap bytes bytes) (k : bytes) : error + gmap bytes bytes :=
  inr (delete k b).

(** [DB.Update]: runs [f] in one transaction; the bucket changes only when
    [f] returns no error. *)
Definition Update (db : DB) (f : gmap bytes bytes → error + gmap bytes bytes)
  : DB * option error :=
  if opened db then
    match f (bucket db) with
    | inl e => (db, Some e)
    | inr b' => (mkDB (opened db) b', None)
    end
  else (db, Some (ErrBolt DatabaseNotOpen)).

End Bolt.

(** Sequencing of fallible steps. *)
Definition bind_err {A B} (x : error + A) (f : A → error + B) : error + B :=
  match x with
  | inl e => inl e
  | inr a => f a
  end.

Notation "x ←! e1 ; e2" := (bind_err e1 (fun x => e2))
  (at level 100, e1 at next level, right associativity).

(** ** collectionDB *)

Record collectionDB := mkCollectionDB {
  db : Bolt.DB;
  coll : Collection;
}.

(** The key of one of the three siblings of an instance: a leading byte
    followed by the instance id. *)
Definition dbKey (lead : byte) (id : bytes) : bytes := lead :: id.

(** The transaction body of [Store]. *)
Definition storeTx (sc : StateChange) (b : gmap bytes bytes) : error + gmap bytes bytes :=
  match scAction sc with
  | Create | Update =>
      b1 ←! Bolt.Put b (dbKey x00 (InstanceID sc)) (Value sc);
      b2 ←! Bolt.Put b1 (dbKey x01 (InstanceID sc)) (ContractID sc);
      Bolt.Put b2 (dbKey x02 (InstanceID sc)) (DarcID sc)
  | Remove_ =>
      b1 ←! Bolt.Delete b (dbKey x00 (InstanceID sc));
      b2 ←! Bolt.Delete b1 (dbKey x01 (InstanceID sc));
      Bolt.Delete b2 (dbKey x02 (InstanceID sc))
  | OtherAction _ => inl ErrInvalidStateAction
  end.

(** [collectionDB.Store] *)
Definition Store (c : collectionDB) (sc : StateChange) : collectionDB * option error :=
  match storeInColl (coll c) sc with
  | inl err => (c, Some err)
  | inr coll' =>
      let '(db', err) := Bolt.Update (db c) (storeTx sc) in
      (mkCollectionDB db' coll', err)
  end.

Section RootHash.

(** The Merkle root is a function of the entries of the collection; the
    hashing itself belongs to the collection package. *)
Variable GetRoot : Collection → bytes.

Definition RootHash (c : collectionDB) : bytes := GetRoot (coll c).

(** The loop of [tryHash]: adds the pairs one by one and pushes one
    deferred removal per successful [Add].  Returns the collection, the
    stack of deferred keys (most recent first) and the error that left the
    loop, if any. *)
Fixpoint tryHash_loop (c : Collection) (ts : list StateChange) (deferred : list bytes)
  : Collection * list bytes * option error :=
  match ts with
  | [] => (c, deferred, None)
  | sc :: ts' =>
      match Add c (InstanceID sc) (sc_record sc) with
      | inl err => (c, deferred, Some err)
      | inr c' => tryHash_loop c' ts' (InstanceID sc :: deferred)
      end
  end.

(** The deferred closures, run last-in first-out over the named results
    [(mr, rerr)]. *)
Fixpoint run_deferred (c : Collection) (deferred : list bytes)
    (res : bytes * option error) : Collection * (bytes * option error) :=
  match deferred with
  | [] => (c, res)
  | k :: ds =>
      match Remove c k with
      | inl err => run_deferred c ds ([], Some err)
      | inr c' => run_deferred c' ds res
      end
  end.

(** [collectionDB.tryHash]: the collection on return, and [(mr, rerr)]. *)
Definition tryHash (c : collectionDB) (ts : list StateChange)
  : collectionDB * (bytes * option error) :=
  let '(c1, deferred, rerr) := tryHash_loop (coll c) ts [] in
  let res := match rerr with
             | Some err => ([], Some err)
             | None => (GetRoot c1, None)
             end in
  let '(c2, res') := run_deferred c1 deferred res in
  (mkCollectionDB (db c) c2, res').

End RootHash.

(** [undoes c ds c0]: running the deferred removals [ds] on [c] meets no
    error and ends in [c0]. *)
Definition undoes (c : Collection) (ds : list bytes) (c0 : Collection) : Prop :=
  ∀ res, run_deferred c ds res = (c0, res).

(** ** Concrete data for the examples on the collection *)

(** A stand-in root for the examples: the entries in key order, flattened. *)
Definition listRoot (c : Collection) : bytes :=
  flat_map (λ kr, kr.1 ++ rValue kr.2 ++ rContractID kr.2 ++ rDarcID kr.2)
           (map_to_list c).

Definition key_a : bytes := [x61].
Definition key_b : bytes := [x62].
Definition val_1 : bytes := [x31].
Definition val_2 : bytes := [x32].
Definition cid_dummy : bytes := [x64; x75; x6d; x6d; x79].
Definition darc_0 : bytes := [x00].

Definition sc_create_a : StateChange := mkStateChange Create key_a cid_dummy darc_0 val_1.
Definition sc_create_b : StateChange := mkStateChange Create key_b cid_dummy darc_0 val_2.
Definition sc_update_a : StateChange := mkStateChange Update key_a cid_dummy darc_0 val_2.

Definition openDB : Bolt.DB := Bolt.mkDB true ∅.
Definition closedDB : Bolt.DB := Bolt.mkDB false ∅.

Definition cdb_empty : collectionDB := mkCollectionDB openDB ∅.

(** A change whose instance id is as long as the longest key bolt takes, so
    that the key in the bucket, one byte longer, is too large. *)
Definition long_id : bytes := replicate (Z.to_nat Bolt.MaxKeySize) x61.
Definition sc_create_long : StateChange := mkStateChange Create long_id cid_dummy darc_0 val_1.
Definition cdb_closed : collectionDB := mkCollectionDB closedDB ∅.
Definition cdb_with_a : collectionDB :=
  mkCollectionDB openDB {[ key_a := mkRecord val_1 cid_dummy darc_0 ]}.


(** * The skipchain service *)

Module Skipchain.

Abbreviation SkipBlockID := bytes.

(** Go's [int], two's complement on 64 bits. *)
Definition wrap_int (z : Z) : Z := (z + 2 ^ 63) mod 2 ^ 64 - 2 ^ 63.

(** The verification policies; only [VerifyNone] is named by the service. *)
Inductive VerifierID :=
  | VerifyNone
  | VerifyOther (n : N).

#[global] Instance VerifierID_eq_dec : EqDecision VerifierID.
Proof. solve_decision. Defined.

(** Modelled from the spec: the declarations of the block types are not
    part of the given sources.  A link to another block: the hash of that
    block, and the collective signature over the link once there is one. *)
Record BlockLink := mkBlockLink {
  bl_Hash : SkipBlockID;
  bl_Signature : option bytes;
}.

(** Modelled from the spec: [NewBlockLink()], a link that names no block
    yet and carries no signature over a pair of hashes. *)
Definition NewBlockLink : BlockLink := mkBlockLink [] None.

(** The two kinds of block, with what each carries besides the common part.
    [EntityList] is a pointer: [None] is the nil pointer. *)
Inductive SkipBlockBody :=
  | SkipBlockData (Data : bytes)
  | SkipBlockRoster (EntityList : option (list bytes)).

(** Modelled from the spec: a block, with the fields of [SkipBlockCommon]
    that the service reads and writes, and the body.  [Index] and [Height]
    are Go integers. *)
Record SkipBlock := mkSkipBlock {
  Index : Z;
  Height : Z;
  BackLink : list SkipBlockID;
  ForwardLink : list BlockLink;
  VerifierId : VerifierID;
  ParentBlock : SkipBlockID;
  Hash : SkipBlockID;
  Body : SkipBlockBody;
}.

Definition set_Index (v : Z) (b : SkipBlock) : SkipBlock :=
  mkSkipBlock v (Height b) (BackLink b) (ForwardLink b) (VerifierId b)
              (ParentBlock b) (Hash b) (Body b).
Definition set_Height (v : Z) (b : SkipBlock) : SkipBlock :=
  mkSkipBlock (Index b) v (BackLink b) (ForwardLink b) (VerifierId b)
              (ParentBlock b) (Hash b) (Body b).
Definition set_BackLink (v : list SkipBlockID) (b : SkipBlock) : SkipBlock :=
  mkSkipBlock (Index b) (Height b) v (ForwardLink b) (VerifierId b)
              (ParentBlock b) (Hash b) (Body b).
Definition set_ForwardLink (v : list BlockLink) (b : SkipBlock) : SkipBlock :=
  mkSkipBlock (Index b) (Height b) (BackLink b) v (VerifierId b)
              (ParentBlock b) (Hash b) (Body b).
Definition set_VerifierId (v : VerifierID) (b : SkipBlock) : SkipBlock :=
  mkSkipBlock (Index b) (Height b) (BackLink b) (ForwardLink b) v
              (ParentBlock b) (Hash b) (Body b).
Definition set_Hash (v : SkipBlockID) (b : SkipBlock) : SkipBlock :=
  mkSkipBlock (Index b) (Height b) (BackLink b) (ForwardLink b) (VerifierId b)
              (ParentBlock b) v (Body b).

(** Modelled from the spec: the hash of a block covers every field except
    the forward links (and the hash itself). *)
Definition hashed (b : SkipBlock) : SkipBlock :=
  set_Hash [] (set_ForwardLink [] b).

(** The service: [SkipBlocks], keyed by the bytes of the block id.  The map
    holds the blocks themselves: a block found in the map and then changed is
    written back under the key it was found at.  A proposed block is a
    message of its own, held by nobody else. *)
Record Service := mkService {
  SkipBlocks : gmap SkipBlockID SkipBlock;
}.

(** [newSkipchainService] *)
Definition newSkipchainService : Service := mkService ∅.

Record ProposedSkipBlockReply := mkReply {
  Previous : option SkipBlock;
  Latest : SkipBlock;
}.

(** How a call ends: it returns, or the Go run time panics (a failed type
    assertion, a nil pointer). *)
Inductive Outcome (A : Type) :=
  | Returned (a : A)
  | Panicked.

Arguments Returned {A} a.
Arguments Panicked {A}.

(** The result [r], unless what ran just before panicked. *)
Definition thenReturn {A B} (o : Outcome A) (r : B) : Outcome B :=
  match o with
  | Returned _ => Returned r
  | Panicked => Panicked
  end.

(** [getSkipBlockByID] *)
Definition getSkipBlockByID (s : Service) (sbID : SkipBlockID) : option SkipBlock :=
  SkipBlocks s !! sbID.

(** [startPropagation]: finds the entity list to send the block to, that of
    the block itself for a roster block and that of the parent for a data
    block; the parent is asserted to be a roster block.  The sends are the
    business of the transport; the error or the list the block goes to is
    all that is kept here. *)
Definition startPropagation (s : Service) (latest : SkipBlock)
  : Outcome (error + list bytes) :=
  match Body latest with
  | SkipBlockData _ =>
      match getSkipBlockByID s (ParentBlock latest) with
      | None => Returned (inl ErrParentNotFound)
      | Some parent =>
          match Body parent with
          | SkipBlockRoster (Some el) => Returned (inr el)
          | SkipBlockRoster None => Panicked
          | SkipBlockData _ => Panicked
          end
      end
  | SkipBlockRoster (Some el) => Returned (inr el)
  | SkipBlockRoster None => Panicked
  end.

(** [bl := make([]byte, 32); rand.Read(bl)]: the buffer filled with what the
    random source delivered. *)
Definition randBackLink (rnd : bytes) : bytes := take 32 (rnd ++ replicate 32 x00).

Section Hashing.

(** The digest computed by [updateHash]; the block passed to it is always
    [hashed]. *)
Variable calcHash : SkipBlock → SkipBlockID.

(** Modelled from the spec: [updateHash] computes the hash of the block,
    stores it in the block and returns it. *)
Definition updateHash (b : SkipBlock) : SkipBlock * SkipBlockID :=
  let h := calcHash (hashed b) in (set_Hash h b, h).

(** [verifyNewSkipBlock] *)
Definition verifyNewSkipBlock (latest newest : SkipBlock) : bool :=
  bool_decide (VerifierId newest = VerifyNone).

(** [updateNewSkipBlock].  [prev] is [None] for the genesis block, and
    otherwise the previous block with the key it is stored under.  Returns
    the service, the previous block and the proposed block as the call
    leaves them.  The proposed block is a value here: this is the call on a
    block object that the service does not hold; the call on any object is
    [SkipchainMem.updateNewSkipBlock_ptr]. *)
Definition updateNewSkipBlock (s : Service) (prev : option (SkipBlockID * SkipBlock))
    (proposed : SkipBlock) (rnd : bytes)
  : Service * option SkipBlock * SkipBlock :=
  let sbc := set_Height 1 proposed in
  let sbc := set_BackLink (replicate (Z.to_nat (Height sbc)) []) sbc in
  match prev with
  | None =>
      let sbc := set_Index (wrap_int (Index sbc + 1)) sbc in
      let bl := randBackLink rnd in
      let sbc := set_BackLink (<[0%nat := bl]> (BackLink sbc)) sbc in
      let '(sbc, curID) := updateHash sbc in
      (mkService (<[curID := sbc]> (SkipBlocks s)), None, sbc)
  | Some (key, prevCommon) =>
      let sbc := set_Index (wrap_int (Index prevCommon + 1)) sbc in
      let '(prevCommon, prevHash) := updateHash prevCommon in
      let sbc := set_BackLink (<[0%nat := prevHash]> (BackLink sbc)) sbc in
      let '(sbc, curHashID) := updateHash sbc in
      let link := mkBlockLink curHashID (bl_Signature NewBlockLink) in
      let prevCommon := set_ForwardLink (<[0%nat := link]> (replicate 1 NewBlockLink))
                                        prevCommon in
      let blocks := <[key := prevCommon]> (SkipBlocks s) in
      (mkService (<[curHashID := sbc]> blocks), Some prevCommon, sbc)
  end.

(** [ProposeSkipBlock]: the service on return or at the panic, and how the
    call ends.  The error that [startPropagation] returns is dropped.  The
    proposed block is a value here: this is the call on a block object that
    the service does not hold, as the handlers make it with the block of a
    decoded message; the call on any object, held or not, is
    [SkipchainMem.ProposeSkipBlock_ptr], and the two agree on objects that
    are not held. *)
Definition ProposeSkipBlock (s : Service) (latest : SkipBlockID)
    (proposed : SkipBlock) (rnd : bytes)
  : Service * Outcome (error + ProposedSkipBlockReply) :=
  if decide (length latest = 0%nat) then
    let proposed := set_VerifierId VerifyNone proposed in
    let '(s', _, proposed) := updateNewSkipBlock s None proposed rnd in
    let reply := mkReply None proposed in
    (s', thenReturn (startPropagation s' proposed) (inr reply))
  else
    match SkipBlocks s !! latest with
    | None => (s, Returned (inl ErrLatestNotFound))
    | Some prev =>
        let proposed := set_VerifierId (VerifierId prev) proposed in
        if verifyNewSkipBlock prev proposed then
          let '(s', prev', proposed) :=
            updateNewSkipBlock s (Some (latest, prev)) proposed rnd in
          let reply := mkReply prev' proposed in
          (s', thenReturn (startPropagation s' proposed) (inr reply))
        else (s, Returned (inl ErrVerificationFailed))
    end.

(** [PropagateSkipBlockData]: a block received from another node is stored
    under the hash it carries. *)
Definition PropagateSkipBlockData (s : Service) (latest : SkipBlock) : Service :=
  mkService (<[Hash latest := latest]> (SkipBlocks s)).

(** The loop of [GetUpdateChain].  It runs as long as the current block has
    a forward link; [fuel] bounds the number of turns and [None] is a run
    that needs more. *)
Fixpoint followForward (fuel : nat) (s : Service) (block : SkipBlock)
    (blocks : list SkipBlock) : option (error + list SkipBlock) :=
  match ForwardLink block with
  | [] => Some (inr blocks)
  | link :: _ =>
      match fuel with
      | O => None
      | S fuel' =>
          match getSkipBlockByID s (bl_Hash link) with
          | None => Some (inl ErrMissingForward)
          | Some block' => followForward fuel' s block' (blocks ++ [block'])
          end
      end
  end.

(** [GetUpdateChain]: the [Update] field of the reply, or the error. *)
Definition GetUpdateChain (fuel : nat) (s : Service) (latest : SkipBlockID)
  : option (error + list SkipBlock) :=
  match getSkipBlockByID s latest with
  | None => Some (inl ErrLatestSkipblockNotFound)
  | Some block => followForward fuel s block [block]
  end.

(** The states of the service that calls of [ProposeSkipBlock] lead to,
    however each call ends. *)
Inductive reachable : Service → Prop :=
  | reachable_new : reachable newSkipchainService
  | reachable_propose s latest proposed rnd :
      reachable s →
      reachable (ProposeSkipBlock s latest proposed rnd).1.

(** [later s s']: calls of [ProposeSkipBlock] lead from [s] to [s']. *)
Inductive later (s : Service) : Service → Prop :=
  | later_refl : later s s
  | later_propose s' latest proposed rnd :
      later s s' →
      later s (ProposeSkipBlock s' latest proposed rnd).1.

(** The block that a genesis proposal stores. *)
Definition genesisBlock (proposed : SkipBlock) (rnd : bytes) : SkipBlock :=
  (updateHash
     (set_BackLink [randBackLink rnd]
        (set_Index (wrap_int (Index proposed + 1))
           (set_Height 1 (set_VerifierId VerifyNone proposed))))).1.

(** The block that a proposal on [prev] stores. *)
Definition nextBlock (prev proposed : SkipBlock) : SkipBlock :=
  (updateHash
     (set_BackLink [calcHash (hashed prev)]
        (set_Index (wrap_int (Index prev + 1))
           (set_Height 1 (set_VerifierId (VerifierId prev) proposed))))).1.

(** The service after a genesis proposal. *)
Definition genesisStore (s : Service) (proposed : SkipBlock) (rnd : bytes) : Service :=
  mkService (<[Hash (genesisBlock proposed rnd) := genesisBlock proposed rnd]>
               (SkipBlocks s)).

(** The previous block after a proposal on it: rehashed, with the one forward
    link to the new block. *)
Definition linkedPrev (prev proposed : SkipBlock) : SkipBlock :=
  set_ForwardLink [mkBlockLink (Hash (nextBlock prev proposed)) None]
                  (set_Hash (calcHash (hashed prev)) prev).

(** The service after a proposal on [prev], found under [latest]. *)
Definition nextStore (s : Service) (latest : SkipBlockID) (prev proposed : SkipBlock)
  : Service :=
  mkService (<[Hash (nextBlock prev proposed) := nextBlock prev proposed]>
               (<[latest := linkedPrev prev proposed]> (SkipBlocks s))).

(** Every block is stored under the hash it carries, which is the digest of
    its hashed fields. *)
Definition well_keyed_map (m : gmap SkipBlockID SkipBlock) : Prop :=
  ∀ k b, m !! k = Some b → Hash b = k ∧ k = calcHash (hashed b).

Definition well_keyed (s : Service) : Prop := well_keyed_map (SkipBlocks s).

(** The level-0 chain from a block to a block without forward links, every
    block on the way stored under the hash of the link that leads to it. *)
Inductive chain0 (s : Service) : SkipBlock → list SkipBlock → Prop :=
  | chain0_last b : ForwardLink b = [] → chain0 s b [b]
  | chain0_step b link links b' l :
      ForwardLink b = link :: links →
      SkipBlocks s !! bl_Hash link = Some b' →
      chain0 s b' l →
      chain0 s b (b :: l).

End Hashing.

(** ** The rules of the specification, in its words *)

(** "the largest [h] such that [index] is divisible by [base^h]" *)
Definition largest_divisible_height (base index h : Z) : Prop :=
  0 ≤ h ∧ (base ^ h | index) ∧ ∀ h', 0 ≤ h' → (base ^ h' | index) → h' ≤ h.

(** "choose [b.forwardlinks[h]] for the largest [h] such that the link exists
    and its signature is verifiable" *)
Definition highest_verifiable_link (verifiable : SkipBlock → BlockLink → bool)
    (b : SkipBlock) : option BlockLink :=
  last (filter (λ l, verifiable b l = true) (ForwardLink b)).

(** The traversal of the specification: as [followForward], with the link
    chosen by [highest_verifiable_link]. *)
Fixpoint followHighest (verifiable : SkipBlock → BlockLink → bool) (fuel : nat)
    (s : Service) (block : SkipBlock) (blocks : list SkipBlock)
  : option (error + list SkipBlock) :=
  match highest_verifiable_link verifiable block with
  | None => Some (inr blocks)
  | Some link =>
      match fuel with
      | O => None
      | S fuel' =>
          match SkipBlocks s !! bl_Hash link with
          | None => Some (inl ErrMissingForward)
          | Some block' => followHighest verifiable fuel' s block' (blocks ++ [block'])
          end
      end
  end.

Definition GetUpdateChain_highest (verifiable : SkipBlock → BlockLink → bool)
    (fuel : nat) (s : Service) (latest : SkipBlockID)
  : option (error + list SkipBlock) :=
  match SkipBlocks s !! latest with
  | None => Some (inl ErrLatestSkipblockNotFound)
  | Some block => followHighest verifiable fuel s block [block]
  end.

(** The link invariant of the specification for a block [b] of the store:
    [b.backlinks[0]] is the hash of a stored block [p], [p.forwardlinks[0]]
    names [b] and carries a signature that is valid over the two hashes. *)
Definition link_invariant (valid : SkipBlockID → SkipBlockID → bytes → bool)
    (s : Service) (b : SkipBlock) : Prop :=
  ∃ p link sig,
    BackLink b !! 0%nat = Some (Hash p) ∧
    SkipBlocks s !! Hash p = Some p ∧
    ForwardLink p !! 0%nat = Some link ∧
    bl_Hash link = Hash b ∧
    bl_Signature link = Some sig ∧
    valid (Hash p) (Hash b) sig = true.

(** ** Concrete data for the examples on the skipchain *)

Definition byte_of_Z (z : Z) : byte :=
  default x00 (Byte.of_N (Z.to_N (z mod 256))).

Definition body_bytes (b : SkipBlockBody) : bytes :=
  match b with
  | SkipBlockData d => x00 :: d
  | SkipBlockRoster el => x01 :: concat (default [] el)
  end.

(** A stand-in digest for the examples: the hashed fields written out one
    after the other. *)
Definition fieldsHash (b : SkipBlock) : SkipBlockID :=
  byte_of_Z (Index b) :: byte_of_Z (Height b) :: body_bytes (Body b)
    ++ ParentBlock b ++ concat (BackLink b).

(** A block as a client fills it in before proposing it. *)
Definition blankBlock (d : bytes) : SkipBlock :=
  mkSkipBlock 0 0 [] [] VerifyNone [] [] (SkipBlockData d).

Definition rnd0 : bytes := replicate 32 x2a.

(** A data block that names [parent] as its parent block. *)
Definition childBlock (parent : SkipBlockID) (d : bytes) : SkipBlock :=
  mkSkipBlock 0 0 [] [] VerifyNone parent [] (SkipBlockData d).

(** A chain: genesis, then two blocks proposed on the genesis one after the
    other. *)
Definition run_genesis := ProposeSkipBlock fieldsHash newSkipchainService [] (blankBlock [x67]) rnd0.
Definition s_genesis : Service := run_genesis.1.
Definition id_genesis : SkipBlockID :=
  match run_genesis.2 with Returned (inr r) => Hash (Latest r) | _ => [] end.

Definition run_fork1 := ProposeSkipBlock fieldsHash s_genesis id_genesis (blankBlock [x31]) [].
Definition s_fork1 : Service := run_fork1.1.
Definition blk_fork1 : SkipBlock :=
  match run_fork1.2 with Returned (inr r) => Latest r | _ => blankBlock [] end.

Definition run_fork2 := ProposeSkipBlock fieldsHash s_fork1 id_genesis (blankBlock [x32]) [].
Definition s_fork2 : Service := run_fork2.1.
Definition blk_fork2 : SkipBlock :=
  match run_fork2.2 with Returned (inr r) => Latest r | _ => blankBlock [] end.
Definition genesis_after_fork : SkipBlock :=
  default (blankBlock []) (SkipBlocks s_fork2 !! id_genesis).

(** The chain continued after [blk_fork1] by two more blocks. *)
Definition run_third := ProposeSkipBlock fieldsHash s_fork1 (Hash blk_fork1) (blankBlock [x33]) [].
Definition blk_third : SkipBlock :=
  match run_third.2 with Returned (inr r) => Latest r | _ => blankBlock [] end.
Definition run_fourth := ProposeSkipBlock fieldsHash run_third.1 (Hash blk_third) (blankBlock [x34]) [].
Definition blk_fourth : SkipBlock :=
  match run_fourth.2 with Returned (inr r) => Latest r | _ => blankBlock [] end.

(** Three blocks received from other nodes: [A] links to [B] at level 0 and
    to [C] at level 1, [B] links to [C], [C] is the latest.  Every link is
    signed. *)
Definition id_A : SkipBlockID := [x41].
Definition id_B : SkipBlockID := [x42].
Definition id_C : SkipBlockID := [x43].
Definition sig_ok : option bytes := Some [x73].

Definition blk_C : SkipBlock :=
  mkSkipBlock 3 2 [id_B; id_A] [] VerifyNone [] id_C (SkipBlockData [x43]).
Definition blk_B : SkipBlock :=
  mkSkipBlock 2 1 [id_A] [mkBlockLink id_C sig_ok] VerifyNone [] id_B (SkipBlockData [x42]).
Definition blk_A : SkipBlock :=
  mkSkipBlock 1 2 [rnd0; rnd0] [mkBlockLink id_B sig_ok; mkBlockLink id_C sig_ok]
              VerifyNone [] id_A (SkipBlockData [x41]).

Definition s_ABC : Service :=
  PropagateSkipBlockData
    (PropagateSkipBlockData (PropagateSkipBlockData newSkipchainService blk_A) blk_B)
    blk_C.

Definition signed (b : SkipBlock) (l : BlockLink) : bool :=
  bool_decide (is_Some (bl_Signature l)).

End Skipchain.

(** * The transaction executor *)

Module Executor.

(** [InstanceID]: the darc that scopes the instance and a discriminator. *)
Record InstanceID_ := mkInstanceID {
  iidDarcID : bytes;
  iidSubID : bytes;
}.

(** [InstanceID.Slice] *)
Definition Slice (i : InstanceID_) : bytes := iidDarcID i ++ iidSubID i.

Record Argument := mkArgument {
  argName : bytes;
  argValue : bytes;
}.

(** The three kinds of instruction. *)
Inductive Operation :=
  | Spawn (contractID : bytes) (args : list Argument)
  | Invoke (command : bytes) (args : list Argument)
  | Delete.

Record Instruction := mkInstruction {
  instID : InstanceID_;
  Nonce : bytes;
  instIndex : Z;
  instLength : Z;
  instOp : Operation;
  instSignatures : list bytes;
}.

Record ClientTransaction := mkClientTransaction {
  Instructions : list Instruction;
}.

Record Coin := mkCoin {
  coinName : bytes;
  coinValue : Z;
}.

(** What a call of a contract can end in: it returns state changes and coins,
    it returns an error, or it panics. *)
Inductive ContractOutcome :=
  | Returns (sc : list StateChange) (outCoins : list Coin)
  | Fails (msg : bytes)
  | Panics (msg : bytes).

(** [OmniLedgerContract]: a function of the read-only view of the
    collection, the instruction and the coins that come in. *)
Definition OmniLedgerContract : Type :=
  Collection → Instruction → list Coin → ContractOutcome.

(** [NewStateChange] *)
Definition NewStateChange (sa : StateAction) (iid : InstanceID_) (contractID value : bytes)
  : StateChange :=
  mkStateChange sa (Slice iid) contractID (iidDarcID iid) value.

(** The contracts of the tests.  [dummyContractFunc] reads
    [inst.Spawn.Args[0]]: without a spawn or without arguments that is a
    run-time panic. *)
Definition invalidContractFunc : OmniLedgerContract :=
  λ cdb inst c,
    Fails [x69; x6e; x76; x61; x6c; x69; x64].

Definition panicContractFunc : OmniLedgerContract :=
  λ cdb inst c,
    Panics [x70; x61; x6e; x69; x63].

Definition dummyContractFunc : OmniLedgerContract :=
  λ cdb inst c,
    match instOp inst with
    | Spawn cid (a :: _) =>
        Returns [NewStateChange Create (instID inst) cid (argValue a)] []
    | _ => Panics [x6e; x69; x6c]
    end.

(** Why a transaction is rejected. *)
Inductive Rejection :=
  | DarcRefused                 (* an instruction does not satisfy its darc *)
  | NoContract                  (* no contract under the contract id *)
  | ContractFailed (msg : bytes)
  | ContractPanicked (msg : bytes)
  | ChangeRefused (e : error).  (* a state change does not apply *)

Section Execution.

(** The verification of an instruction against its darc in the snapshot. *)
Variable verifyInstruction : Collection → Instruction → bool.

(** The contract registry. *)
Variable contracts : gmap bytes OmniLedgerContract.

(** Modelled from the spec: the contract an instruction runs, named by the
    instruction for a spawn, the contract of the instance otherwise. *)
Definition contractOf (view : Collection) (inst : Instruction) : option OmniLedgerContract :=
  match instOp inst with
  | Spawn cid _ => contracts !! cid
  | _ =>
      match view !! Slice (instID inst) with
      | Some r => contracts !! rContractID r
      | None => None
      end
  end.

(** Modelled from the spec: the executor ([createStateChanges] and the
    function that runs one instruction) is not part of the given sources.
    One instruction: look the contract up and call it; a panic of the
    contract is caught and counts as a failure of the instruction. *)
Definition executeInstruction (view : Collection) (cin : list Coin) (inst : Instruction)
  : Rejection + (list StateChange * list Coin) :=
  match contractOf view inst with
  | None => inl NoContract
  | Some f =>
      match f view inst cin with
      | Returns scs cout => inr (scs, cout)
      | Fails msg => inl (ContractFailed msg)
      | Panics msg => inl (ContractPanicked msg)
      end
  end.

(** Modelled from the spec: the changes of one instruction are applied to
    the tentative collection, in order. *)
Definition applyChanges (c : Collection) (scs : list StateChange) : Rejection + Collection :=
  match storeAllInColl c scs with
  | inl e => inl (ChangeRefused e)
  | inr c' => inr c'
  end.

(** Modelled from the spec: the instructions of one transaction, in order,
    on the tentative collection, coins passing from one to the next. *)
Fixpoint runInstructions (c : Collection) (cin : list Coin) (insts : list Instruction)
  : Rejection + (Collection * list StateChange) :=
  match insts with
  | [] => inr (c, [])
  | inst :: rest =>
      match executeInstruction c cin inst with
      | inl why => inl why
      | inr (scs, cout) =>
          match applyChanges c scs with
          | inl why => inl why
          | inr c' =>
              match runInstructions c' cout rest with
              | inl why => inl why
              | inr (c'', scs') => inr (c'', scs ++ scs')
              end
          end
      end
  end.

(** Modelled from the spec: one transaction.  Every instruction is verified
    against the snapshot first; any failure rejects the transaction and none
    of its changes is kept. *)
Definition runTransaction (c : Collection) (tx : ClientTransaction)
  : Rejection + (Collection * list StateChange) :=
  if forallb (verifyInstruction c) (Instructions tx)
  then runInstructions c [] (Instructions tx)
  else inl DarcRefused.

Record Execution := mkExecution {
  accepted : list ClientTransaction;
  rejected : list ClientTransaction;
  changes : list StateChange;
  state : Collection;
}.

(** Modelled from the spec: [createStateChanges], the transactions in the
    order given, each on the state the accepted ones before it lead to. *)
Fixpoint createStateChanges (c : Collection) (txs : list ClientTransaction) : Execution :=
  match txs with
  | [] => mkExecution [] [] [] c
  | tx :: rest =>
      match runTransaction c tx with
      | inl _ =>
          let r := createStateChanges c rest in
          mkExecution (accepted r) (tx :: rejected r) (changes r) (state r)
      | inr (c', scs) =>
          let r := createStateChanges c' rest in
          mkExecution (tx :: accepted r) (rejected r) (scs ++ changes r) (state r)
      end
  end.

(** A transaction one of whose contracts panics when it runs on [c]. *)
Definition panics_on (c : Collection) (tx : ClientTransaction) : Prop :=
  ∃ msg, runTransaction c tx = inl (ContractPanicked msg).

End Execution.

(** ** Concrete data: the batch of [TestService_InvalidVerification] *)

Definition kind_dummy : bytes := [x64; x75; x6d; x6d; x79].
Definition kind_invalid : bytes := [x69; x6e; x76].
Definition kind_panic : bytes := [x70; x61; x6e; x69; x63].

Definition test_contracts : gmap bytes OmniLedgerContract :=
  <[kind_panic := panicContractFunc]>
    (<[kind_invalid := invalidContractFunc]>
       (<[kind_dummy := dummyContractFunc]> ∅)).

Definition darc_base : bytes := [x44].

(** [createOneClientTx]: one spawn of [kind] with one argument. *)
Definition oneClientTx (sub : bytes) (kind value : bytes) : ClientTransaction :=
  mkClientTransaction
    [mkInstruction (mkInstanceID darc_base sub) [x00] 0 1
       (Spawn kind [mkArgument [x76] value]) []].

Definition tx0 : ClientTransaction := oneClientTx [x00] kind_panic [x61].
Definition tx1 : ClientTransaction := oneClientTx [x01] kind_invalid [x61].
Definition tx2 : ClientTransaction := oneClientTx [x02] kind_dummy [x62].

Definition acceptAll (c : Collection) (inst : Instruction) : bool := true.

(** An invoke on the instance that [tx2] spawns: the contract of the
    instance is [dummyContractFunc], which reads [inst.Spawn.Args[0]]. *)
Definition tx_invoke : ClientTransaction :=
  mkClientTransaction
    [mkInstruction (mkInstanceID darc_base [x02]) [x01] 0 1 (Invoke [x75] []) []].

(** A spawn of the panicking contract on the instance that [tx2] spawns. *)
Definition tx_panic_same : ClientTransaction := oneClientTx [x02] kind_panic [x61].

(** The keys of the instances that a transaction names. *)
Definition instanceKeys (tx : ClientTransaction) : list bytes :=
  map (λ inst, Slice (instID inst)) (Instructions tx).

End Executor.

(** * Darcs *)

Module Darc.

#[local] Set Warnings "-register-all".

Abbreviation Identity := bytes.

(** Modelled from the spec: the expressions of the rules, identities
    combined by and, or and thresholds. *)
Inductive Expr :=
  | EId (id : Identity)
  | EAnd (a b : Expr)
  | EOr (a b : Expr)
  | EThreshold (k : nat) (es : list Expr).

(** Modelled from the spec: whether the identities [ids] satisfy an
    expression. *)
Fixpoint satisfies (ids : list Identity) (e : Expr) : bool :=
  match e with
  | EId id => bool_decide (id ∈ ids)
  | EAnd a b => satisfies ids a && satisfies ids b
  | EOr a b => satisfies ids a || satisfies ids b
  | EThreshold k es =>
      bool_decide (k ≤ length (filter (λ b : bool, b = true) (map (satisfies ids) es)))%nat
  end.

Record Signature := mkSignature {
  Signer : Identity;
  Sig : bytes;
}.

(** Modelled from the spec: the darc package is not part of the given
    sources.  A darc: its version, the hash of the previous version, the
    base id (the hash of version 0), the rules by action name, and the
    signatures over this version. *)
Record Darc_ := mkDarc {
  Version : Z;
  PrevID : bytes;
  BaseID : bytes;
  Rules : list (bytes * Expr);
  Signatures : list Signature;
}.

Definition action_evolve : bytes := [x65; x76; x6f; x6c; x76; x65].

(** The rule of an action: the first one under that name. *)
Fixpoint ruleOf (rules : list (bytes * Expr)) (action : bytes) : option Expr :=
  match rules with
  | [] => None
  | (a, e) :: rest => if decide (a = action) then Some e else ruleOf rest action
  end.

Section Crypto.

(** The hash of a darc and the verification of one signature over a digest:
    the primitives come from outside. *)
Variable hashDarc : Darc_ → bytes.
Variable verifySig : Identity → bytes → bytes → bool.

(** Modelled from the spec: the id of a darc is its hash, which covers
    everything but the signatures. *)
Definition GetID (d : Darc_) : bytes :=
  hashDarc (mkDarc (Version d) (PrevID d) (BaseID d) (Rules d) []).

(** Modelled from the spec: the base id is the id of version 0, carried
    along by the later versions. *)
Definition GetBaseID (d : Darc_) : bytes :=
  if decide (Version d = 0) then GetID d else BaseID d.

(** The identities whose signature over [digest] verifies. *)
Definition verifiedSigners (sigs : list Signature) (digest : bytes) : list Identity :=
  map Signer (filter (λ s, verifySig (Signer s) digest (Sig s) = true) sigs).

(** Modelled from the spec: [evaluate(darc, action, signers, digest)], Ok
    iff the rule of [action] is satisfied by the identities whose signatures
    over the digest verify. *)
Definition evaluate (d : Darc_) (action : bytes) (sigs : list Signature) (digest : bytes)
  : bool :=
  match ruleOf (Rules d) action with
  | None => false
  | Some e => satisfies (verifiedSigners sigs digest) e
  end.

(** Modelled from the spec: [evolve(old, new)]. *)
Definition evolve (old new : Darc_) : bool :=
  bool_decide (Version new = Version old + 1)
  && bool_decide (PrevID new = GetID old)
  && bool_decide (GetBaseID new = GetBaseID old)
  && evaluate old action_evolve (Signatures new) (GetID new).

(** Modelled from the spec: the darc stored under the base id after an
    evolution is proposed: the new one if it is accepted, the old one
    otherwise. *)
Definition storedAfter (old new : Darc_) : Darc_ :=
  if evolve old new then new else old.

End Crypto.

(** ** Concrete data: the darcs of [TestService_DarcEvolutionFail] *)

Definition owner : Identity := [x6f].

Definition idHash (d : Darc_) : bytes :=
  Skipchain.byte_of_Z (Version d) :: PrevID d ++ BaseID d.

Definition sigByName (id : Identity) (digest sig : bytes) : bool :=
  bool_decide (sig = id ++ digest).

Definition genesisDarc : Darc_ :=
  mkDarc 0 [] [] [(action_evolve, EId owner)] [].

(** The next version of a darc, signed by [who]. *)
Definition evolveFrom (d : Darc_) (version : Z) (who : Identity) : Darc_ :=
  let unsigned := mkDarc version (GetID idHash d) (GetBaseID idHash d) (Rules d) [] in
  mkDarc version (GetID idHash d) (GetBaseID idHash d) (Rules d)
         [mkSignature who (who ++ GetID idHash unsigned)].

Definition darc_v11 : Darc_ := evolveFrom genesisDarc 11 owner.
Definition darc_v1 : Darc_ := evolveFrom genesisDarc 1 owner.

(** Version 1 with the name of the owner on a signature that does not
    verify, and version 1 with a signature, which verifies, of somebody the
    evolve rule does not name. *)
Definition darc_forged : Darc_ :=
  mkDarc 1 (GetID idHash genesisDarc) (GetBaseID idHash genesisDarc) (Rules genesisDarc)
         [mkSignature owner [x00]].
Definition stranger : Identity := [x73].
Definition darc_stranger : Darc_ := evolveFrom genesisDarc 1 stranger.

End Darc.

(** * Reading the collection, and loading it from bolt *)

Module CollectionDB.

Import Skipchain.

(** A Go value of type [interface{}]: a byte slice, or something else. *)
Inductive goValue :=
  | VBytes (b : bytes)
  | VOther.

(** The errors of the reading functions of [struct.go]. *)
Inductive readError :=
  | NoMatch              (* the record does not match the key *)
  | NotThreeValues       (* "values does not have 3 elements" *)
  | NotBytes (i : nat)   (* "values[i] is not a slice of bytes" *)
  | NothingStored        (* "nothing stored under that key" *)
  | ValueNotBytes        (* "the value is not of type []byte" *)
  | ContractNotBytes.    (* "the contract is not of type []byte" *)

(** Modelled from the spec: [coll.Get(key).Record()] followed by
    [Values()], of the collection package.  The record of a key that is
    stored holds the three values that were added; the record of a key that
    is not stored has no values to give. *)
Definition recordValues (c : Collection) (key : bytes) : readError + list goValue :=
  match c !! key with
  | None => inl NoMatch
  | Some r => inr [VBytes (rValue r); VBytes (rContractID r); VBytes (rDarcID r)]
  end.

(** [getValuesFromRecord]: value, contract id and darc id. *)
Definition getValuesFromRecord (values : readError + list goValue)
  : readError + (bytes * bytes * bytes) :=
  match values with
  | inl err => inl err
  | inr values =>
      if decide (length values ≠ 3%nat) then inl NotThreeValues
      else
        match values !! 0%nat with
        | Some (VBytes value) =>
            match values !! 1%nat with
            | Some (VBytes c) =>
                match values !! 2%nat with
                | Some (VBytes did) => inr (value, c, did)
                | _ => inl (NotBytes 2)
                end
            | _ => inl (NotBytes 1)
            end
        | _ => inl (NotBytes 0)
        end
  end.

(** [collectionDB.GetValues] (and [roCollection.GetValues], which is the
    same on the collection it wraps). *)
Definition GetValues (c : collectionDB) (key : bytes) : readError + (bytes * bytes * bytes) :=
  getValuesFromRecord (recordValues (coll c) key).

(** [getValueContract]: value and contract id.  With a single value,
    [hashes[1]] is out of range. *)
Definition getValueContract (c : Collection) (key : bytes)
  : Outcome (readError + (bytes * bytes)) :=
  match recordValues c key with
  | inl err => Returned (inl err)
  | inr hashes =>
      if decide (length hashes = 0%nat) then Returned (inl NothingStored)
      else
        match hashes !! 0%nat with
        | Some (VBytes value) =>
            match hashes !! 1%nat with
            | Some (VBytes contract) => Returned (inr (value, contract))
            | Some VOther => Returned (inl ContractNotBytes)
            | None => Panicked
            end
        | _ => Returned (inl ValueNotBytes)
        end
  end.

(** [collectionDB.GetValueContract] *)
Definition GetValueContract (c : collectionDB) (key : bytes)
  : Outcome (readError + (bytes * bytes)) :=
  getValueContract (coll c) key.

(** Calling [Store] for each change in turn, up to the first error. *)
Fixpoint StoreAll (c : collectionDB) (ts : list StateChange) : collectionDB * option error :=
  match ts with
  | [] => (c, None)
  | sc :: ts' =>
      match Store c sc with
      | (c', Some err) => (c', Some err)
      | (c', None) => StoreAll c' ts'
      end
  end.

(** The order of the keys of a bolt bucket: byte by byte. *)
Fixpoint bytes_leb (a b : bytes) : bool :=
  match a, b with
  | [], _ => true
  | _ :: _, [] => false
  | x :: a', y :: b' =>
      if (Byte.to_N x <? Byte.to_N y)%N then true
      else if (Byte.to_N y <? Byte.to_N x)%N then false
      else bytes_leb a' b'
  end.

Definition entry_le (e1 e2 : bytes * bytes) : Prop := bytes_leb e1.1 e2.1 = true.

#[global] Instance entry_le_dec : RelDecision entry_le.
Proof. intros e1 e2. unfold entry_le. apply _. Defined.

(** What a cursor over the bucket delivers from [First] on: the pairs in
    key order. *)
Definition cursor (b : gmap bytes bytes) : list (bytes * bytes) :=
  merge_sort entry_le (map_to_list b).

(** The errors of [loadAll]. *)
Inductive loadError :=
  | ContractTypeMissing (id : bytes)   (* "contract type missing for object ID %x" *)
  | DarcIDMissing (id : bytes)         (* "darcID missing for object ID %x" *)
  | LoadFailed (e : error).            (* the error of [Add], or of [View] *)

(** The loop of [loadAll] over the pairs the cursor delivers.  Keys that
    start with a byte other than 0 are skipped; [k2[0] = 1] on an empty key
    is out of range.  Returns the collection as the loop leaves it. *)
Fixpoint loadLoop (b : gmap bytes bytes) (cur : list (bytes * bytes)) (c : Collection)
  : Collection * Outcome (option loadError) :=
  match cur with
  | [] => (c, Returned None)
  | (k, v) :: rest =>
      match k with
      | [] => (c, Panicked)
      | lead :: id =>
          if decide (lead ≠ x00) then loadLoop b rest c
          else
            match b !! (x01 :: id) with
            | None => (c, Returned (Some (ContractTypeMissing id)))
            | Some cv =>
                match b !! (x02 :: id) with
                | None => (c, Returned (Some (DarcIDMissing id)))
                | Some dv =>
                    match Add c id (mkRecord v cv dv) with
                    | inl err => (c, Returned (Some (LoadFailed err)))
                    | inr c' => loadLoop b rest c'
                    end
                end
            end
      end
  end.

(** [collectionDB.loadAll]: inside [db.View]. *)
Definition loadAll (c : collectionDB) : collectionDB * Outcome (option loadError) :=
  if Bolt.opened (db c) then
    let '(coll', res) := loadLoop (Bolt.bucket (db c)) (cursor (Bolt.bucket (db c))) (coll c) in
    (mkCollectionDB (db c) coll', res)
  else (c, Returned (Some (LoadFailed (ErrBolt DatabaseNotOpen)))).

(** [newCollectionDB]: an empty collection, filled by [loadAll], whose error
    is dropped.  The bucket of the model is there from the start, empty when
    [CreateBucket] has just made it. *)
Definition newCollectionDB (d : Bolt.DB) : Outcome collectionDB :=
  let '(c, res) := loadAll (mkCollectionDB d ∅) in
  thenReturn res c.

(** The bucket holds the collection: the three siblings of every instance,
    and no other key. *)
Definition mirrors (b : gmap bytes bytes) (c : Collection) : Prop :=
  (∀ id r, c !! id = Some r →
     b !! dbKey x00 id = Some (rValue r)
     ∧ b !! dbKey x01 id = Some (rContractID r)
     ∧ b !! dbKey x02 id = Some (rDarcID r))
  ∧ (∀ k v, b !! k = Some v →
       ∃ lead id, k = lead :: id ∧ lead ∈ [x00; x01; x02] ∧ is_Some (c !! id)).

(** The bucket after the three [Put]s of a [Create] or an [Update]. *)
Definition put3 (b : gmap bytes bytes) (id v cv dv : bytes) : gmap bytes bytes :=
  <[dbKey x02 id := dv]> (<[dbKey x01 id := cv]> (<[dbKey x00 id := v]> b)).

(** The bucket after the three [Delete]s of a [Remove]. *)
Definition delete3 (b : gmap bytes bytes) (id : bytes) : gmap bytes bytes :=
  delete (dbKey x02 id) (delete (dbKey x01 id) (delete (dbKey x00 id) b)).

(** The collection with every pair of [ts] added. *)
Definition addAll (c : Collection) (ts : list StateChange) : Collection :=
  foldl (λ m sc, <[InstanceID sc := sc_record sc]> m) c ts.

(** The keys of [ts] are new to [c] and differ from one another. *)
Definition fresh_keys (c : Collection) (ts : list StateChange) : Prop :=
  NoDup (map InstanceID ts) ∧ Forall (λ sc, c !! InstanceID sc = None) ts.

(** ** Concrete data *)

Definition sc_remove_a : StateChange := mkStateChange Remove_ key_a [] [] [].

(** The store after two creates on the empty store. *)
Definition cdb_stored_ab : collectionDB :=
  (StoreAll cdb_empty [sc_create_a; sc_create_b]).1.

(** The store after one create on the empty store. *)
Definition cdb_stored_a : collectionDB := (Store cdb_empty sc_create_a).1.

(** A bucket in which the contract sibling of [key_b] is missing. *)
Definition bucket_torn : gmap bytes bytes :=
  <[dbKey x00 key_b := val_2]>
    (<[dbKey x02 key_a := darc_0]>
       (<[dbKey x01 key_a := cid_dummy]> (<[dbKey x00 key_a := val_1]> ∅))).

End CollectionDB.

(** * The other calls of the skipchain service *)

Module SkipchainCalls.

Import Skipchain.

(** The type assertion to [*SkipBlockData] on a block interface: a panic
    for the nil interface and for a roster block. *)
Definition assertData (b : option SkipBlock) : Outcome SkipBlock :=
  match b with
  | None => Panicked
  | Some b' =>
      match Body b' with
      | SkipBlockData _ => Returned b'
      | SkipBlockRoster _ => Panicked
      end
  end.

(** The type assertion to [*SkipBlockRoster]. *)
Definition assertRoster (b : option SkipBlock) : Outcome SkipBlock :=
  match b with
  | None => Panicked
  | Some b' =>
      match Body b' with
      | SkipBlockRoster _ => Returned b'
      | SkipBlockData _ => Panicked
      end
  end.

(** [verifyLinkedSkipBlock] *)
Definition verifyLinkedSkipBlock (latest newest : SkipBlock) : bool := true.

(** The errors of [ForwardSignature]. *)
Inductive fsError :=
  | FsNotFound          (* "Didn't find SkipBlock" *)
  | FsBadSignature      (* "Couldn't verify signature of new block" *)
  | FsNotInBackLinks    (* "Didn't find ourselves in the backlinks" *)
  | FsNotAccepted       (* "New SkipBlock not accepted!" *)
  | FsNoUpdatePath.     (* "Didn't find a valid update-path" *)

(** The search loop of [ForwardSignature]: the first index from
    [updateHeight] on whose backlink equals [h], or the index past the last
    one. *)
Fixpoint findBackLink (backLinks : list SkipBlockID) (h : SkipBlockID) (updateHeight : nat)
  : nat :=
  match backLinks with
  | [] => updateHeight
  | x :: rest =>
      if decide (x = h) then updateHeight
      else findBackLink rest h (S updateHeight)
  end.

(** Following [n] level-0 forward links from a block leads, through stored
    blocks, to another. *)
Inductive walk0 (s : Service) : SkipBlock → nat → SkipBlock → Prop :=
  | walk0_O b : walk0 s b 0 b
  | walk0_S b link links b' n b'' :
      ForwardLink b = link :: links →
      SkipBlocks s !! bl_Hash link = Some b' →
      walk0 s b' n b'' →
      walk0 s b (S n) b''.

Section Calls.

Variable calcHash : SkipBlock → SkipBlockID.

(** [VerifySignatures] of a block: whether it returns nil.  The check
    belongs to the block types. *)
Variable VerifySignatures : SkipBlock → bool.

(** Whether [make] takes a capacity (it panics on a negative one and on one
    that is too large for the platform). *)
Variable makeCapOK : Z → bool.

(** [ProposeSkipBlockData]: the two blocks of the reply.  The proposed block
    is passed on as it comes. *)
Definition ProposeSkipBlockData (s : Service) (latest : SkipBlockID)
    (proposed : SkipBlock) (rnd : bytes)
  : Service * Outcome (error + (SkipBlock * SkipBlock)) :=
  let '(s', res) := ProposeSkipBlock calcHash s latest proposed rnd in
  match res with
  | Panicked => (s', Panicked)
  | Returned (inl err) => (s', Returned (inl err))
  | Returned (inr reply) =>
      match assertData (Previous reply) with
      | Panicked => (s', Panicked)
      | Returned p =>
          match assertData (Some (Latest reply)) with
          | Panicked => (s', Panicked)
          | Returned l => (s', Returned (inr (p, l)))
          end
      end
  end.

(** [ProposeSkipBlockRoster] *)
Definition ProposeSkipBlockRoster (s : Service) (latest : SkipBlockID)
    (proposed : SkipBlock) (rnd : bytes)
  : Service * Outcome (error + (SkipBlock * SkipBlock)) :=
  let '(s', res) := ProposeSkipBlock calcHash s latest proposed rnd in
  match res with
  | Panicked => (s', Panicked)
  | Returned (inl err) => (s', Returned (inl err))
  | Returned (inr reply) =>
      match assertRoster (Previous reply) with
      | Panicked => (s', Panicked)
      | Returned p =>
          match assertRoster (Some (Latest reply)) with
          | Panicked => (s', Panicked)
          | Returned l => (s', Returned (inr (p, l)))
          end
      end
  end.

(** The last statements of [ForwardSignature]:
    [commCurrent.ForwardLink[currHeight].Hash = updating.Latest.GetHash()]
    and the return of [current], stored under [key]. *)
Definition setForwardHash (s : Service) (key : SkipBlockID) (current : SkipBlock)
    (currHeight : nat) (h : SkipBlockID)
  : Service * Outcome (fsError + SkipBlock) :=
  match ForwardLink current !! currHeight with
  | None => (s, Panicked)
  | Some link =>
      let current :=
        set_ForwardLink (<[currHeight := mkBlockLink h (bl_Signature link)]>
                           (ForwardLink current)) current in
      (mkService (<[key := current]> (SkipBlocks s)), Returned (inr current))
  end.

(** [ForwardSignature], on [updating.ToUpdate] and [updating.Latest]. *)
Definition ForwardSignature (s : Service) (ToUpdate : SkipBlockID) (Latest : SkipBlock)
  : Service * Outcome (fsError + SkipBlock) :=
  match SkipBlocks s !! ToUpdate with
  | None => (s, Returned (inl FsNotFound))
  | Some current =>
      if negb (VerifySignatures Latest) then (s, Returned (inl FsBadSignature))
      else
        let latestHeight := length (BackLink Latest) in
        let updateHeight := findBackLink (BackLink Latest) (Hash current) 0 in
        if decide (updateHeight = latestHeight)
        then (s, Returned (inl FsNotInBackLinks))
        else
          let currHeight := length (ForwardLink current) in
          if decide (currHeight = 0%nat) then
            if negb (makeCapOK (Height current)) then (s, Panicked)
            else
              let current := set_ForwardLink [] current in
              let s := mkService (<[ToUpdate := current]> (SkipBlocks s)) in
              if negb (verifyNewSkipBlock current Latest)
              then (s, Returned (inl FsNotAccepted))
              else setForwardHash s ToUpdate current currHeight (Hash Latest)
          else
            if negb (verifyLinkedSkipBlock current Latest)
            then (s, Returned (inl FsNoUpdatePath))
            else setForwardHash s ToUpdate current currHeight (Hash Latest)
  end.

(** What holds of every block stored under [k] in a state that calls of
    [ProposeSkipBlock] lead to. *)
Definition block_wf (k : SkipBlockID) (b : SkipBlock) : Prop :=
  Hash b = k
  ∧ k = calcHash (hashed b)
  ∧ Height b = 1
  ∧ length (BackLink b) = 1%nat
  ∧ VerifierId b = VerifyNone.

End Calls.

(** ** Concrete data *)

(** A block proposed with a forward link already in it. *)
Definition linkedBlock (d : bytes) (to : SkipBlockID) : SkipBlock :=
  mkSkipBlock 0 0 [] [mkBlockLink to None] VerifyNone [] [] (SkipBlockData d).

(** A genesis block, and on it a block that comes with a forward link back
    to the genesis block. *)
Definition s_cycle : Service :=
  (ProposeSkipBlock fieldsHash s_genesis id_genesis (linkedBlock [x63] id_genesis) []).1.

(** A genesis block that comes with a forward link to a block nobody has. *)
Definition s_dangling : Service :=
  (ProposeSkipBlock fieldsHash newSkipchainService [] (linkedBlock [x64] [x3f]) rnd0).1.
Definition id_dangling : SkipBlockID :=
  Hash (genesisBlock fieldsHash (linkedBlock [x64] [x3f]) rnd0).

(** A roster block as a client fills it in. *)
Definition rosterBlock (el : list bytes) : SkipBlock :=
  mkSkipBlock 0 0 [] [] VerifyNone [] [] (SkipBlockRoster (Some el)).

End SkipchainCalls.

(** * The skipchain service on block objects *)

(** [SkipBlock] is an interface that the pointer types [*SkipBlockData] and
    [*SkipBlockRoster] implement: [ProposeSkipBlock] changes the object that
    it is given and puts that very object into [SkipBlocks].  Here the block
    objects live in a memory, by address, and the map of the service holds
    addresses: one object can be held under several keys, and an object
    that the service holds can be proposed again. *)
Module SkipchainMem.

Import Skipchain.

Abbreviation ptr := positive.

(** The memory of the process as far as the service goes: the block
    objects, and [s.SkipBlocks], which holds pointers to them. *)
Record ServiceMem := mkServiceMem {
  heap : gmap ptr SkipBlock;
  blocksAt : gmap SkipBlockID ptr;
}.

(** [newSkipchainService], in a memory that holds the objects [h]. *)
Definition newServiceMem (h : gmap ptr SkipBlock) : ServiceMem := mkServiceMem h ∅.

(** Reading through a pointer; a pointer to no object is a nil pointer, and
    the read panics. *)
Definition deref (h : gmap ptr SkipBlock) (p : ptr) : Outcome SkipBlock :=
  match h !! p with
  | Some b => Returned b
  | None => Panicked
  end.

Definition bind_outcome {A B} (o : Outcome A) (f : A → Outcome B) : Outcome B :=
  match o with
  | Returned a => f a
  | Panicked => Panicked
  end.

Notation "x ←? e1 ; e2" := (bind_outcome e1 (fun x => e2))
  (at level 100, e1 at next level, right associativity).

(** Writing a field through a pointer. *)
Definition assign (f : SkipBlock → SkipBlock) (p : ptr) (h : gmap ptr SkipBlock)
  : gmap ptr SkipBlock := alter f p h.

(** The blocks of the service as a reader of [SkipBlocks] sees them: under
    each key the object that the pointer held there leads to. *)
Definition view (m : ServiceMem) : Service :=
  mkService (omap (λ p, heap m !! p) (blocksAt m)).

(** [startPropagation] only reads: the block, and the stored parent. *)
Definition startPropagation_ptr (m : ServiceMem) (latest : ptr)
  : Outcome (error + list bytes) :=
  b ←? deref (heap m) latest;
  startPropagation (view m) b.

Section Hashing.

Variable calcHash : SkipBlock → SkipBlockID.

(** [b.updateHash()] through the pointer [p]: the hash is computed from the
    object as it is now, stored in it and returned. *)
Definition updateHash_ptr (h : gmap ptr SkipBlock) (p : ptr)
  : Outcome (gmap ptr SkipBlock * SkipBlockID) :=
  b ←? deref h p;
  let d := calcHash (hashed b) in
  Returned (assign (set_Hash d) p h, d).

(** [updateNewSkipBlock], statement by statement, every read and write
    going through the pointers [prev] and [proposed], which may be the same
    object or objects that the service holds. *)
Definition updateNewSkipBlock_ptr (m : ServiceMem) (prev : option ptr) (proposed : ptr)
    (rnd : bytes) : Outcome ServiceMem :=
  let h := heap m in
  _ ←? deref h proposed;
  let h := assign (set_Height 1) proposed h in
  let h := assign (λ sbc, set_BackLink (replicate (Z.to_nat (Height sbc)) []) sbc)
                  proposed h in
  match prev with
  | None =>
      let h := assign (λ sbc, set_Index (wrap_int (Index sbc + 1)) sbc) proposed h in
      let bl := randBackLink rnd in
      let h := assign (λ sbc, set_BackLink (<[0%nat := bl]> (BackLink sbc)) sbc)
                      proposed h in
      r ←? updateHash_ptr h proposed;
      let h := r.1 in
      let curID := r.2 in
      Returned (mkServiceMem h (<[curID := proposed]> (blocksAt m)))
  | Some prev =>
      prevCommon ←? deref h prev;
      let h := assign (set_Index (wrap_int (Index prevCommon + 1))) proposed h in
      r ←? updateHash_ptr h prev;
      let h := r.1 in
      let prevHash := r.2 in
      let h := assign (λ sbc, set_BackLink (<[0%nat := prevHash]> (BackLink sbc)) sbc)
                      proposed h in
      r ←? updateHash_ptr h proposed;
      let h := r.1 in
      let curHashID := r.2 in
      let h := assign (set_ForwardLink (replicate 1 NewBlockLink)) prev h in
      let h := assign (λ pc, set_ForwardLink
                               (alter (λ l, mkBlockLink curHashID (bl_Signature l)) 0%nat
                                      (ForwardLink pc)) pc) prev h in
      Returned (mkServiceMem h (<[curHashID := proposed]> (blocksAt m)))
  end.

(** [ProposeSkipBlock] on a pointer: the memory on return or at the panic,
    and how the call ends; the reply holds the two pointers. *)
Definition ProposeSkipBlock_ptr (m : ServiceMem) (latest : SkipBlockID) (proposed : ptr)
    (rnd : bytes) : ServiceMem * Outcome (error + (option ptr * ptr)) :=
  if decide (length latest = 0%nat) then
    match heap m !! proposed with
    | None => (m, Panicked)
    | Some _ =>
        let m1 := mkServiceMem (assign (set_VerifierId VerifyNone) proposed (heap m))
                               (blocksAt m) in
        match updateNewSkipBlock_ptr m1 None proposed rnd with
        | Panicked => (m1, Panicked)
        | Returned m2 =>
            (m2, thenReturn (startPropagation_ptr m2 proposed) (inr (None, proposed)))
        end
    end
  else
    match blocksAt m !! latest with
    | None => (m, Returned (inl ErrLatestNotFound))
    | Some prev =>
        match heap m !! proposed, heap m !! prev with
        | Some _, Some pv =>
            let m1 := mkServiceMem (assign (set_VerifierId (VerifierId pv)) proposed (heap m))
                                   (blocksAt m) in
            match heap m1 !! prev, heap m1 !! proposed with
            | Some pv1, Some b1 =>
                if verifyNewSkipBlock pv1 b1 then
                  match updateNewSkipBlock_ptr m1 (Some prev) proposed rnd with
                  | Panicked => (m1, Panicked)
                  | Returned m2 =>
                      (m2, thenReturn (startPropagation_ptr m2 proposed)
                                      (inr (Some prev, proposed)))
                  end
                else (m1, Returned (inl ErrVerificationFailed))
            | _, _ => (m1, Panicked)
            end
        | _, _ => (m, Panicked)
        end
    end.

(** The memory after a genesis proposal of the object at [p], which held
    the block [b]. *)
Definition genesisMem (m : ServiceMem) (p : ptr) (b : SkipBlock) (rnd : bytes)
  : ServiceMem :=
  mkServiceMem (<[p := genesisBlock calcHash b rnd]> (heap m))
               (<[Hash (genesisBlock calcHash b rnd) := p]> (blocksAt m)).

(** The memory after the proposal of the object at [p], which held the
    block [b], on another object, at [prev], which held [pv]. *)
Definition nextMem (m : ServiceMem) (prev p : ptr) (pv b : SkipBlock) : ServiceMem :=
  mkServiceMem (<[prev := linkedPrev calcHash pv b]>
                  (<[p := nextBlock calcHash pv b]> (heap m)))
               (<[Hash (nextBlock calcHash pv b) := p]> (blocksAt m)).

(** The service holds the object at [p] under some key. *)
Definition holds (m : ServiceMem) (p : ptr) : Prop := ∃ k, blocksAt m !! k = Some p.

(** The memory states that calls of [ProposeSkipBlock] lead to when every
    call proposes an object that the service does not hold, as the handlers
    [ProposeSkipBlockData] and [ProposeSkipBlockRoster] do with the block of
    the message they decoded, and when between the calls the objects that
    the service holds are left alone. *)
Inductive reachable_fresh : ServiceMem → Prop :=
  | reachable_fresh_new h : reachable_fresh (newServiceMem h)
  | reachable_fresh_caller m h' :
      reachable_fresh m →
      (∀ p, holds m p → h' !! p = heap m !! p) →
      reachable_fresh (mkServiceMem h' (blocksAt m))
  | reachable_fresh_propose m latest proposed rnd :
      reachable_fresh m →
      ¬ holds m proposed →
      reachable_fresh (ProposeSkipBlock_ptr m latest proposed rnd).1.

(** [later_fresh m m']: such calls and such steps of the callers lead from
    [m] to [m']. *)
Inductive later_fresh (m : ServiceMem) : ServiceMem → Prop :=
  | later_fresh_refl : later_fresh m m
  | later_fresh_caller m' h' :
      later_fresh m m' →
      (∀ p, holds m' p → h' !! p = heap m' !! p) →
      later_fresh m (mkServiceMem h' (blocksAt m'))
  | later_fresh_propose m' latest proposed rnd :
      later_fresh m m' →
      ¬ holds m' proposed →
      later_fresh m (ProposeSkipBlock_ptr m' latest proposed rnd).1.

(** No object is held under two keys, and every pointer held leads to an
    object. *)
Definition separate (m : ServiceMem) : Prop :=
  (∀ k1 k2 p, blocksAt m !! k1 = Some p → blocksAt m !! k2 = Some p → k1 = k2)
  ∧ (∀ k p, blocksAt m !! k = Some p → is_Some (heap m !! p)).

(** How the result of the call on a pointer compares with the result of the
    call on the value: the same end, the same error, and in a reply
    pointers that lead to the blocks of the reply. *)
Definition same_result (h : gmap ptr SkipBlock) (proposed : ptr)
    (rp : Outcome (error + (option ptr * ptr)))
    (rv : Outcome (error + ProposedSkipBlockReply)) : Prop :=
  match rp, rv with
  | Panicked, Panicked => True
  | Returned (inl e), Returned (inl e') => e = e'
  | Returned (inr (pp, pl)), Returned (inr reply) =>
      pl = proposed
      ∧ h !! pl = Some (Latest reply)
      ∧ match pp with
        | None => Previous reply = None
        | Some q => q ≠ proposed ∧ h !! q = Previous reply
        end
  | _, _ => False
  end.

End Hashing.

(** ** Concrete data: one object proposed twice *)

Definition obj1 : ptr := 1%positive.
Definition obj2 : ptr := 2%positive.

Definition rnd1 : bytes := replicate 32 x2b.

(** A memory with one block object, as a client fills it in. *)
Definition mem0 : ServiceMem := newServiceMem (<[obj1 := blankBlock [x67]]> ∅).

(** The object is proposed as a genesis block, and then once more. *)
Definition mem1 : ServiceMem := (ProposeSkipBlock_ptr fieldsHash mem0 [] obj1 rnd0).1.
Definition mem2 : ServiceMem := (ProposeSkipBlock_ptr fieldsHash mem1 [] obj1 rnd1).1.

Definition key1 : SkipBlockID := Hash (genesisBlock fieldsHash (blankBlock [x67]) rnd0).

(** Two objects, the second proposed on the first. *)
Definition mem_two : ServiceMem :=
  newServiceMem (<[obj2 := blankBlock [x31]]> (<[obj1 := blankBlock [x67]]> ∅)).
Definition mem_g : ServiceMem := (ProposeSkipBlock_ptr fieldsHash mem_two [] obj1 rnd0).1.
Definition run_next := ProposeSkipBlock_ptr fieldsHash mem_g id_genesis obj2 [].
Definition mem_next : ServiceMem := run_next.1.

End SkipchainMem.
(** * Properties of the collection store *)

Section CollectionFacts.

Variable GetRoot : Collection → bytes.

Lemma undoes_nil c : undoes c [] c.
Proof. intros res. reflexivity. Qed.

Lemma undoes_Add c k r c' ds c0 :
  Add c k r = inr c' → undoes c ds c0 → undoes c' (k :: ds) c0.
Proof.
  unfold Add. intros Hadd Hun res.
  destruct (c !! k) eqn:Hk; [discriminate|].
  injection Hadd as <-. simpl. unfold Remove.
  rewrite lookup_insert_eq, delete_insert_id by done.
  apply Hun.
Qed.

Lemma tryHash_loop_undoes ts : ∀ c ds c0 c1 ds1 rerr,
  undoes c ds c0 →
  tryHash_loop c ts ds = (c1, ds1, rerr) →
  undoes c1 ds1 c0.
Proof.
  induction ts as [|sc ts IH]; simpl; intros c ds c0 c1 ds1 rerr Hun Hloop.
  - by injection Hloop as <- <- _.
  - destruct (Add c (InstanceID sc) (sc_record sc)) as [err|c'] eqn:Hadd.
    + by injection Hloop as <- <- _.
    + eapply IH; [|exact Hloop]. by eapply undoes_Add.
Qed.

(** On return the collection is the one [tryHash] was called on, and the
    results are those computed at the end of the loop. *)
Lemma tryHash_unfold c ts c1 ds1 rerr :
  tryHash_loop (coll c) ts [] = (c1, ds1, rerr) →
  tryHash GetRoot c ts =
    (mkCollectionDB (db c) (coll c),
     match rerr with Some err => ([], Some err) | None => (GetRoot c1, None) end).
Proof.
  intros Hloop. unfold tryHash. rewrite Hloop.
  pose proof (tryHash_loop_undoes _ _ _ _ _ _ _ (undoes_nil (coll c)) Hloop) as Hun.
  by rewrite Hun.
Qed.

(** With [Create] changes only, the loop of [tryHash] does what
    [storeAllInColl] does. *)
Lemma tryHash_loop_creates ts : ∀ c ds c',
  Forall (λ sc, scAction sc = Create) ts →
  storeAllInColl c ts = inr c' →
  ∃ ds1, tryHash_loop c ts ds = (c', ds1, None).
Proof.
  induction ts as [|sc ts IH]; simpl; intros c ds c' Hall Hstore.
  - injection Hstore as <-. by eexists.
  - apply Forall_cons in Hall as [Hsc Hall].
    unfold storeInColl in Hstore. rewrite Hsc in Hstore.
    destruct (Add c (InstanceID sc) (sc_record sc)) as [err|c2]; [discriminate|].
    by apply IH.
Qed.

End CollectionFacts.

(** C1. Whatever [tryHash] returns, a root or an error, the collection it
    leaves behind has the entries and the root hash (and the bolt handle) it
    had before the call. *)
Theorem tryHash_leaves_no_residue (GetRoot : Collection → bytes)
    (c : collectionDB) (ts : list StateChange) :
  let c' := (tryHash GetRoot c ts).1 in
  coll c' = coll c ∧ RootHash GetRoot c' = RootHash GetRoot c ∧ db c' = db c.
Proof.
  destruct (tryHash_loop (coll c) ts []) as [[c1 ds1] rerr] eqn:Hloop.
  rewrite (tryHash_unfold GetRoot _ _ _ _ _ Hloop). simpl. done.
Qed.

(** C2, as the claim states it, fails: the bolt transaction of this [Store]
    fails (the database is not open) after the entry was added in memory, and
    the entry is still in the collection on return. *)
Lemma Store_no_rollback_counterexample :
  storeInColl (coll cdb_closed) sc_create_a
    = inr {[ key_a := mkRecord val_1 cid_dummy darc_0 ]}
  ∧ (Store cdb_closed sc_create_a).2 = Some (ErrBolt DatabaseNotOpen)
  ∧ coll (Store cdb_closed sc_create_a).1 !! key_a
      = Some (mkRecord val_1 cid_dummy darc_0)
  ∧ coll (Store cdb_closed sc_create_a).1 ≠ coll cdb_closed.
Proof.
  assert (Hs : Store cdb_closed sc_create_a =
    (mkCollectionDB closedDB {[ key_a := mkRecord val_1 cid_dummy darc_0 ]},
     Some (ErrBolt DatabaseNotOpen))) by reflexivity.
  rewrite Hs. simpl. split; [reflexivity|]. split; [reflexivity|]. split.
  - apply lookup_singleton_eq.
  - intros Heq. apply (f_equal (λ m : Collection, m !! key_a)) in Heq.
    by rewrite lookup_singleton_eq, lookup_empty in Heq.
Qed.

(** [Store] returns the error of the bolt transaction as it is, and the
    collection as [storeInColl] left it. *)
Lemma Store_bolt_failure (c : collectionDB) (sc : StateChange)
    (coll' : Collection) (e : error) :
  storeInColl (coll c) sc = inr coll' →
  (Bolt.Update (db c) (storeTx sc)).2 = Some e →
  Store c sc = (mkCollectionDB (db c) coll', Some e).
Proof.
  intros Hmem Hbolt. unfold Store. rewrite Hmem.
  unfold Bolt.Update in *.
  destruct (Bolt.opened (db c)).
  - destruct (storeTx sc (Bolt.bucket (db c))) as [e'|b'].
    + simpl in Hbolt. by injection Hbolt as ->.
    + discriminate.
  - simpl in Hbolt. by injection Hbolt as <-.
Qed.

(** C2, amended. When the in-memory step of [Store] succeeds and the bolt
    transaction then fails, [Store] returns the error of the transaction,
    the database with its bucket is as before, and the collection is the one
    that the in-memory step made: the change is kept, nothing is rolled
    back. *)
Theorem Store_failure_keeps_memory_change (c : collectionDB) (sc : StateChange)
    (coll' : Collection) (e : error) :
  storeInColl (coll c) sc = inr coll' →
  (Bolt.Update (db c) (storeTx sc)).2 = Some e →
  Store c sc = (mkCollectionDB (db c) coll', Some e).
Proof. apply Store_bolt_failure. Qed.

Lemma Store_failure_keeps_memory_change_witness :
  Store cdb_closed sc_create_a =
    (mkCollectionDB closedDB {[ key_a := mkRecord val_1 cid_dummy darc_0 ]},
     Some (ErrBolt DatabaseNotOpen)).
Proof.
  apply (Store_failure_keeps_memory_change cdb_closed sc_create_a
           {[ key_a := mkRecord val_1 cid_dummy darc_0 ]} (ErrBolt DatabaseNotOpen));
    reflexivity.
Defined.

(** The same with an open database: the transaction fails on its first [Put]
    (the key is too large), bolt leaves the bucket as it was, and the entry
    stays in the collection. *)
Example Store_key_too_large :
  Store cdb_empty sc_create_long =
    (mkCollectionDB openDB {[ long_id := mkRecord val_1 cid_dummy darc_0 ]},
     Some (ErrBolt KeyTooLarge)).
Proof.
  apply Store_bolt_failure.
  - unfold storeInColl, Add. simpl. by rewrite lookup_empty.
  - unfold Bolt.Update, storeTx, Bolt.Put, dbKey. cbn -[replicate Z.of_nat Z.to_nat].
    unfold long_id. rewrite length_replicate.
    rewrite decide_False by (vm_compute; discriminate).
    rewrite decide_True by (vm_compute; reflexivity). reflexivity.
Qed.

(** C3, as the claim states it, fails: an [Update] of a stored instance is
    applicable (as a set), yet [tryHash] adds the pair, meets the key and
    returns an error instead of the root. *)
Lemma tryHash_update_counterexample :
  Forall (λ sc, scAction sc ∈ [Create; Update; Remove_]) [sc_update_a]
  ∧ storeAllInColl (coll cdb_with_a) [sc_update_a]
      = inr {[ key_a := mkRecord val_2 cid_dummy darc_0 ]}
  ∧ (tryHash listRoot cdb_with_a [sc_update_a]).2
      = ([], Some (ErrColl KeyCollision))
  ∧ (tryHash listRoot cdb_with_a [sc_update_a]).2
      ≠ (listRoot {[ key_a := mkRecord val_2 cid_dummy darc_0 ]}, None).
Proof.
  assert (Ht : (tryHash listRoot cdb_with_a [sc_update_a]).2
               = ([], Some (ErrColl KeyCollision))).
  { unfold tryHash. simpl. unfold Add.
    unfold cdb_with_a, sc_update_a. simpl. by rewrite lookup_singleton_eq. }
  split; [|split; [|split]].
  - repeat constructor.
  - simpl. unfold storeInColl, cdb_with_a, sc_update_a, Set_. simpl.
    rewrite lookup_singleton_eq. by rewrite insert_singleton_eq.
  - exact Ht.
  - rewrite Ht. discriminate.
Qed.

(** C3, amended. For changes that are all [Create] and apply in order,
    [tryHash] returns without error the root of the collection those changes
    lead to, and leaves the collection as it was. *)
Theorem tryHash_creates_root (GetRoot : Collection → bytes)
    (c : collectionDB) (ts : list StateChange) (c' : Collection) :
  Forall (λ sc, scAction sc = Create) ts →
  storeAllInColl (coll c) ts = inr c' →
  tryHash GetRoot c ts = (c, (GetRoot c', None)).
Proof.
  intros Hall Hstore.
  destruct (tryHash_loop_creates ts (coll c) [] c' Hall Hstore) as [ds1 Hloop].
  rewrite (tryHash_unfold GetRoot _ _ _ _ _ Hloop). by destruct c.
Qed.

Lemma tryHash_creates_root_witness :
  tryHash listRoot cdb_empty [sc_create_a; sc_create_b]
  = (cdb_empty,
     (listRoot (<[key_b := mkRecord val_2 cid_dummy darc_0]>
                  (<[key_a := mkRecord val_1 cid_dummy darc_0]> ∅)), None)).
Proof.
  apply (tryHash_creates_root listRoot cdb_empty [sc_create_a; sc_create_b]).
  - repeat constructor.
  - reflexivity.
Defined.

(** * Properties of the skipchain service *)

Module SkipchainFacts.

Import Skipchain.

Lemma set_Hash_id b : set_Hash (Hash b) b = b.
Proof. by destruct b. Qed.

Lemma hashed_set_Hash h b : hashed (set_Hash h b) = hashed b.
Proof. reflexivity. Qed.

Lemma hashed_set_ForwardLink l b : hashed (set_ForwardLink l b) = hashed b.
Proof. reflexivity. Qed.

Lemma length_randBackLink rnd : length (randBackLink rnd) = 32%nat.
Proof.
  unfold randBackLink. rewrite length_take, length_app, length_replicate. lia.
Qed.

Section Facts.

Variable calcHash : SkipBlock → SkipBlockID.

Lemma thenReturn_Returned {A B} (o : Outcome A) (r x : B) :
  thenReturn o r = Returned x → x = r.
Proof. destruct o; simpl; congruence. Qed.

Lemma ProposeSkipBlock_genesis s latest proposed rnd :
  length latest = 0%nat →
  ProposeSkipBlock calcHash s latest proposed rnd =
    (genesisStore calcHash s proposed rnd,
     thenReturn (startPropagation (genesisStore calcHash s proposed rnd)
                                  (genesisBlock calcHash proposed rnd))
                (inr (mkReply None (genesisBlock calcHash proposed rnd)))).
Proof.
  intros Hlen. unfold ProposeSkipBlock. by rewrite decide_True.
Qed.

Lemma ProposeSkipBlock_next s latest proposed rnd prev :
  length latest ≠ 0%nat →
  SkipBlocks s !! latest = Some prev →
  VerifierId prev = VerifyNone →
  ProposeSkipBlock calcHash s latest proposed rnd =
    (nextStore calcHash s latest prev proposed,
     thenReturn (startPropagation (nextStore calcHash s latest prev proposed)
                                  (nextBlock calcHash prev proposed))
                (inr (mkReply (Some (linkedPrev calcHash prev proposed))
                              (nextBlock calcHash prev proposed)))).
Proof.
  intros Hlen Hprev Hver. unfold ProposeSkipBlock.
  rewrite decide_False, Hprev by done.
  unfold verifyNewSkipBlock. simpl. by rewrite bool_decide_true.
Qed.

(** The outcomes of [ProposeSkipBlock], case by case. *)
Lemma ProposeSkipBlock_cases s latest proposed rnd :
  (length latest = 0%nat ∧
   ProposeSkipBlock calcHash s latest proposed rnd =
     (genesisStore calcHash s proposed rnd,
      thenReturn (startPropagation (genesisStore calcHash s proposed rnd)
                                   (genesisBlock calcHash proposed rnd))
                 (inr (mkReply None (genesisBlock calcHash proposed rnd)))))
  ∨ (∃ e, ProposeSkipBlock calcHash s latest proposed rnd = (s, Returned (inl e)))
  ∨ (∃ prev, length latest ≠ 0%nat ∧ SkipBlocks s !! latest = Some prev ∧
       ProposeSkipBlock calcHash s latest proposed rnd =
         (nextStore calcHash s latest prev proposed,
          thenReturn (startPropagation (nextStore calcHash s latest prev proposed)
                                       (nextBlock calcHash prev proposed))
                     (inr (mkReply (Some (linkedPrev calcHash prev proposed))
                                   (nextBlock calcHash prev proposed))))).
Proof.
  destruct (decide (length latest = 0%nat)) as [Hlen|Hlen].
  { left. split; [done|]. by apply ProposeSkipBlock_genesis. }
  right. destruct (SkipBlocks s !! latest) as [prev|] eqn:Hprev.
  - destruct (decide (VerifierId prev = VerifyNone)) as [Hver|Hver].
    + right. exists prev. split; [done|]. split; [done|].
      by apply ProposeSkipBlock_next.
    + left. exists ErrVerificationFailed. unfold ProposeSkipBlock.
      rewrite decide_False, Hprev by done.
      unfold verifyNewSkipBlock. simpl. by rewrite bool_decide_false.
  - left. exists ErrLatestNotFound. unfold ProposeSkipBlock.
    by rewrite decide_False, Hprev.
Qed.

(** A call that returns a reply is one of the two successful cases. *)
Lemma ProposeSkipBlock_Returned s latest proposed rnd s' r :
  ProposeSkipBlock calcHash s latest proposed rnd = (s', Returned (inr r)) →
  (length latest = 0%nat
   ∧ s' = genesisStore calcHash s proposed rnd
   ∧ r = mkReply None (genesisBlock calcHash proposed rnd))
  ∨ (∃ prev, length latest ≠ 0%nat ∧ SkipBlocks s !! latest = Some prev
       ∧ s' = nextStore calcHash s latest prev proposed
       ∧ r = mkReply (Some (linkedPrev calcHash prev proposed))
                     (nextBlock calcHash prev proposed)).
Proof.
  intros Hrun.
  destruct (ProposeSkipBlock_cases s latest proposed rnd)
    as [[Hlen Heq]|[[e Heq]|(prev & Hlen & Hprev & Heq)]];
    rewrite Heq in Hrun; [|discriminate|].
  - left. split; [done|]. split; [congruence|].
    assert (Hr : thenReturn (startPropagation (genesisStore calcHash s proposed rnd)
                                              (genesisBlock calcHash proposed rnd))
                   (@inr error _ (mkReply None (genesisBlock calcHash proposed rnd)))
                 = Returned (inr r)) by congruence.
    apply thenReturn_Returned in Hr. congruence.
  - right. exists prev. split; [done|]. split; [done|]. split; [congruence|].
    assert (Hr : thenReturn (startPropagation (nextStore calcHash s latest prev proposed)
                                              (nextBlock calcHash prev proposed))
                   (@inr error _ (mkReply (Some (linkedPrev calcHash prev proposed))
                                          (nextBlock calcHash prev proposed)))
                 = Returned (inr r)) by congruence.
    apply thenReturn_Returned in Hr. congruence.
Qed.

Lemma well_keyed_insert m k b :
  well_keyed_map calcHash m → Hash b = k → k = calcHash (hashed b) →
  well_keyed_map calcHash (<[k := b]> m).
Proof.
  intros Hm Hh Hk k' b'. rewrite lookup_insert.
  case_decide as Hkk; [|by apply Hm].
  intros [= <-]. by subst k'.
Qed.

Lemma well_keyed_propose s latest proposed rnd :
  well_keyed calcHash s → well_keyed calcHash (ProposeSkipBlock calcHash s latest proposed rnd).1.
Proof.
  intros Hs.
  destruct (ProposeSkipBlock_cases s latest proposed rnd)
    as [[_ ->]|[[e ->]|(prev & _ & Hprev & ->)]]; [|done|];
    unfold well_keyed, genesisStore, nextStore; cbn [fst SkipBlocks].
  - by apply well_keyed_insert.
  - destruct (Hs _ _ Hprev) as [_ Hk].
    apply well_keyed_insert; [|done..].
    apply well_keyed_insert; [done|exact (eq_sym Hk)|exact Hk].
Qed.

Lemma reachable_well_keyed s : reachable calcHash s → well_keyed calcHash s.
Proof.
  induction 1 as [|s latest proposed rnd _ IH].
  - intros k b. simpl. by rewrite lookup_empty.
  - by apply well_keyed_propose.
Qed.

(** A key of the store stays one. *)
Lemma propose_keeps_keys s latest proposed rnd k :
  is_Some (SkipBlocks s !! k) →
  is_Some (SkipBlocks (ProposeSkipBlock calcHash s latest proposed rnd).1 !! k).
Proof.
  intros Hk.
  destruct (ProposeSkipBlock_cases s latest proposed rnd)
    as [[_ ->]|[[e ->]|(prev & _ & Hprev & ->)]]; [|done|];
    unfold genesisStore, nextStore; cbn [fst SkipBlocks].
  - rewrite lookup_insert. by case_decide.
  - rewrite !lookup_insert. by repeat case_decide.
Qed.

Lemma later_keeps_keys s s' k :
  later calcHash s s' → is_Some (SkipBlocks s !! k) → is_Some (SkipBlocks s' !! k).
Proof.
  induction 1 as [|s' latest proposed rnd _ IH]; [done|].
  intros Hk. by apply propose_keeps_keys, IH.
Qed.

Lemma later_well_keyed s s' :
  later calcHash s s' → well_keyed calcHash s → well_keyed calcHash s'.
Proof.
  induction 1 as [|s' latest proposed rnd _ IH]; [done|].
  intros Hs. by apply well_keyed_propose, IH.
Qed.

Lemma chain0_nonempty s b l : chain0 s b l → (1 ≤ length l)%nat.
Proof. destruct 1; simpl; lia. Qed.

(** [followForward] along a level-0 chain. *)
Lemma followForward_chain0 s b l :
  chain0 s b l →
  ∀ fuel acc, (length l ≤ S fuel)%nat →
    followForward fuel s b (acc ++ [b]) = Some (inr (acc ++ l)).
Proof.
  induction 1 as [b Hb|b link links b' l Hb Hb' Hch IH]; intros fuel acc Hfuel.
  - destruct fuel; simpl; by rewrite Hb.
  - apply chain0_nonempty in Hch. simpl in Hfuel.
    destruct fuel as [|fuel]; [lia|].
    simpl. rewrite Hb. unfold getSkipBlockByID. rewrite Hb'.
    rewrite (IH fuel (acc ++ [b])) by lia.
    by rewrite <- (assoc_L (++)).
Qed.

Lemma followForward_result fuel s : ∀ b acc r,
  followForward fuel s b (acc ++ [b]) = Some (inr r) →
  ∃ l, chain0 s b l ∧ r = acc ++ l.
Proof.
  induction fuel as [|fuel IH]; intros b acc r; simpl.
  - destruct (ForwardLink b) as [|link links] eqn:Hb; [|discriminate].
    intros [= <-]. exists [b]. split; [by constructor|done].
  - destruct (ForwardLink b) as [|link links] eqn:Hb.
    + intros [= <-]. exists [b]. split; [by constructor|done].
    + unfold getSkipBlockByID.
      destruct (SkipBlocks s !! bl_Hash link) as [b'|] eqn:Hb'; [|discriminate].
      intros Hrun. apply IH in Hrun as (l & Hl & ->).
      exists (b :: l). split; [by econstructor|].
      by rewrite <- (assoc_L (++)).
Qed.

End Facts.

(** C5, as the claim states it, fails: [A] has a signed link to [B] at level
    0 and a signed link to the latest block [C] at level 1.  The code goes
    through [B]; the rule of the claim picks the level-1 link and gives the
    shorter sequence. *)
Lemma GetUpdateChain_highest_link_counterexample :
  GetUpdateChain 3 s_ABC id_A = Some (inr [blk_A; blk_B; blk_C])
  ∧ highest_verifiable_link signed blk_A = Some (mkBlockLink id_C sig_ok)
  ∧ GetUpdateChain_highest signed 3 s_ABC id_A = Some (inr [blk_A; blk_C])
  ∧ GetUpdateChain 3 s_ABC id_A ≠ GetUpdateChain_highest signed 3 s_ABC id_A.
Proof.
  assert (H1 : GetUpdateChain 3 s_ABC id_A = Some (inr [blk_A; blk_B; blk_C]))
    by (vm_compute; reflexivity).
  assert (H2 : GetUpdateChain_highest signed 3 s_ABC id_A = Some (inr [blk_A; blk_C]))
    by (vm_compute; reflexivity).
  split; [exact H1|]. split; [vm_compute; reflexivity|]. split; [exact H2|].
  rewrite H1, H2. discriminate.
Qed.

(** C5, amended. [GetUpdateChain] returns the sequence [l] exactly when the
    named block is stored and [l] is the level-0 chain from it: [l] starts
    with the named block, each next block is the one stored under the hash of
    the first forward link of the block before it, and the last block has no
    forward link.  No signature is looked at.  The result is there as soon as
    the loop may take as many turns as [l] has links. *)
Theorem GetUpdateChain_level0 (s : Service) (latest : SkipBlockID) (l : list SkipBlock) :
  (∃ b, SkipBlocks s !! latest = Some b ∧ chain0 s b l)
  ↔ (∀ fuel, (length l ≤ S fuel)%nat → GetUpdateChain fuel s latest = Some (inr l)).
Proof.
  split.
  - intros (b & Hb & Hchain) fuel Hfuel.
    unfold GetUpdateChain, getSkipBlockByID. rewrite Hb.
    apply (followForward_chain0 s b l Hchain fuel []). done.
  - intros Hrun. specialize (Hrun (length l) ltac:(lia)).
    unfold GetUpdateChain, getSkipBlockByID in Hrun.
    destruct (SkipBlocks s !! latest) as [b|]; [|discriminate].
    exists b. split; [done|].
    apply (followForward_result _ s b []) in Hrun as (l' & Hl' & ->). done.
Qed.

Lemma GetUpdateChain_level0_witness :
  GetUpdateChain 2 s_ABC id_A = Some (inr [blk_A; blk_B; blk_C]).
Proof.
  apply (proj1 (GetUpdateChain_level0 s_ABC id_A [blk_A; blk_B; blk_C])).
  - exists blk_A. split; [vm_compute; reflexivity|].
    eapply chain0_step; [reflexivity|vm_compute; reflexivity|].
    eapply chain0_step; [reflexivity|vm_compute; reflexivity|].
    by apply chain0_last.
  - simpl. lia.
Defined.



(** C7, as the claim states it, fails: the genesis block made from a
    proposal whose index is 0 has index 1. *)
Lemma genesis_index_counterexample :
  Index (blankBlock [x67]) = 0
  ∧ ∃ b, run_genesis.2 = Returned (inr (mkReply None b)) ∧ Index b = 1 ∧ Index b ≠ 0.
Proof.
  split; [reflexivity|]. eexists. split; [vm_compute; reflexivity|]. done.
Qed.

(** C7, amended. The block returned by a successful genesis creation (a
    reply without previous block) has the index of the proposal plus one,
    so 1 for a proposal of index 0, height 1, and one backlink: the 32 bytes
    read from the random source. *)
Theorem genesis_block_fields (calcHash : SkipBlock → SkipBlockID)
    (s s' : Service) (latest : SkipBlockID) (proposed : SkipBlock) (rnd : bytes)
    (r : ProposedSkipBlockReply) :
  ProposeSkipBlock calcHash s latest proposed rnd = (s', Returned (inr r)) →
  Previous r = None →
  Index (Latest r) = wrap_int (Index proposed + 1)
  ∧ (Index proposed = 0 → Index (Latest r) = 1)
  ∧ Height (Latest r) = 1
  ∧ BackLink (Latest r) = [randBackLink rnd]
  ∧ length (randBackLink rnd) = 32%nat.
Proof.
  intros Hrun Hprev.
  apply ProposeSkipBlock_Returned in Hrun
    as [(_ & _ & ->)|(prev & _ & _ & _ & ->)]; [|discriminate].
  simpl. split; [done|]. split; [by intros ->|]. split; [done|]. split; [done|].
  apply length_randBackLink.
Qed.

Lemma genesis_block_fields_witness :
  ∃ r, run_genesis.2 = Returned (inr r) ∧ Index (Latest r) = 1 ∧ Height (Latest r) = 1
       ∧ BackLink (Latest r) = [rnd0].
Proof.
  pose proof (genesis_block_fields fieldsHash newSkipchainService s_genesis []
                (blankBlock [x67]) rnd0
                (mkReply None (genesisBlock fieldsHash (blankBlock [x67]) rnd0))
                eq_refl eq_refl) as (_ & Hi & Hh & Hb & _).
  eexists. split; [reflexivity|]. split; [exact (Hi eq_refl)|]. split; [exact Hh|].
  exact Hb.
Defined.

(** C8, as the claim states it, fails.  After two proposals on the genesis
    block, the first proposed block is still stored and its backlink names
    the genesis block, but the first forward link of the genesis block names
    the second proposed block, and carries no signature: the invariant does
    not hold for the first block, whatever signatures count as valid. *)
Lemma link_invariant_counterexample :
  reachable fieldsHash s_fork2
  ∧ (∃ p, run_fork1.2 = Returned (inr (mkReply (Some p) blk_fork1)))
  ∧ SkipBlocks s_fork2 !! Hash blk_fork1 = Some blk_fork1
  ∧ BackLink blk_fork1 = [id_genesis]
  ∧ (∃ p link, SkipBlocks s_fork2 !! id_genesis = Some p
       ∧ ForwardLink p = [link]
       ∧ bl_Hash link ≠ Hash blk_fork1
       ∧ bl_Signature link = None)
  ∧ ¬ ∃ valid, link_invariant valid s_fork2 blk_fork1.
Proof.
  split; [repeat apply reachable_propose; apply reachable_new|].
  split; [eexists; vm_compute; reflexivity|].
  split; [vm_compute; reflexivity|].
  split; [vm_compute; reflexivity|].
  assert (Hg : SkipBlocks s_fork2 !! id_genesis = Some genesis_after_fork)
    by (vm_compute; reflexivity).
  assert (Hl : ForwardLink genesis_after_fork = [mkBlockLink (Hash blk_fork2) None])
    by (vm_compute; reflexivity).
  split.
  { exists genesis_after_fork, (mkBlockLink (Hash blk_fork2) None).
    split; [exact Hg|]. split; [exact Hl|]. split; [|reflexivity].
    vm_compute. discriminate. }
  intros (valid & p & link & sig & Hback & Hp & Hfw & Hhash & Hsig & _).
  assert (Hb0 : BackLink blk_fork1 !! 0%nat = Some id_genesis)
    by (vm_compute; reflexivity).
  rewrite Hb0 in Hback.
  assert (Hid : id_genesis = Hash p) by congruence.
  rewrite <- Hid, Hg in Hp.
  assert (Ep : genesis_after_fork = p) by congruence.
  rewrite <- Ep, Hl in Hfw.
  assert (El : mkBlockLink (Hash blk_fork2) None = link).
  { change (Some (mkBlockLink (Hash blk_fork2) None) = Some link) in Hfw. congruence. }
  rewrite <- El in Hsig. cbn [bl_Signature] in Hsig. discriminate Hsig.
Qed.

(** C10. The code departs from the claim, and from its own doc comment,
    which announces an error for a nil [latest] when blocks exist.  The
    service stores a data block, and the block proposed with an empty
    [latest] is a data block that names it as parent.  No error is returned
    and the new block is stored as a genesis block; then [startPropagation]
    asserts that the parent is a roster block, and the call panics instead
    of returning a reply. *)
Theorem ProposeSkipBlock_nil_latest_panics :
  let run := ProposeSkipBlock fieldsHash s_genesis [] (childBlock id_genesis [x63]) rnd0 in
  let b := genesisBlock fieldsHash (childBlock id_genesis [x63]) rnd0 in
  length ([] : SkipBlockID) = 0%nat
  ∧ (∃ g d, SkipBlocks s_genesis !! id_genesis = Some g ∧ Body g = SkipBlockData d)
  ∧ SkipBlocks s_genesis !! Hash b = None
  ∧ SkipBlocks run.1 !! Hash b = Some b
  ∧ VerifierId b = VerifyNone
  ∧ startPropagation run.1 b = Panicked
  ∧ run.2 = Panicked
  ∧ (∀ e, run.2 ≠ Returned (inl e))
  ∧ (∀ r, run.2 ≠ Returned (inr r)).
Proof.
  intros run b.
  assert (Hp : run.2 = Panicked) by (vm_compute; reflexivity).
  split; [reflexivity|]. split; [eexists _, _; split; vm_compute; reflexivity|].
  split; [vm_compute; reflexivity|].
  split; [vm_compute; reflexivity|].
  split; [reflexivity|].
  split; [vm_compute; reflexivity|].
  split; [exact Hp|]. rewrite Hp. split; intros ? ?; discriminate.
Qed.

End SkipchainFacts.

(** * Properties of the executor *)

Module ExecutorFacts.

Import Executor.

Section Facts.

Variable verifyInstruction : Collection → Instruction → bool.
Variable contracts : gmap bytes OmniLedgerContract.

Local Abbreviation run := (createStateChanges verifyInstruction contracts).

(** A batch in two parts: the second part runs on the state the first part
    leads to. *)
Lemma createStateChanges_app txs1 : ∀ c txs2,
  run c (txs1 ++ txs2) =
    mkExecution
      (accepted (run c txs1) ++ accepted (run (state (run c txs1)) txs2))
      (rejected (run c txs1) ++ rejected (run (state (run c txs1)) txs2))
      (changes (run c txs1) ++ changes (run (state (run c txs1)) txs2))
      (state (run (state (run c txs1)) txs2)).
Proof.
  induction txs1 as [|tx txs1 IH]; intros c txs2.
  - simpl. by destruct (run c txs2).
  - simpl. destruct (runTransaction verifyInstruction contracts c tx) as [why|[c' scs]];
      rewrite IH; simpl; [done|].
    by rewrite <- (assoc_L (++)).
Qed.

(** A transaction that panics is rejected and leaves the state alone. *)
Lemma createStateChanges_panicking c tx txs :
  panics_on verifyInstruction contracts c tx →
  run c (tx :: txs) =
    mkExecution (accepted (run c txs)) (tx :: rejected (run c txs))
                (changes (run c txs)) (state (run c txs)).
Proof. intros [msg Hrun]. simpl. by rewrite Hrun. Qed.

End Facts.




End ExecutorFacts.

(** * Properties of darc evolution *)

Module DarcFacts.

Import Darc.

(** The rule of an action is the first entry of the rules under the name
    of that action. *)
Lemma ruleOf_Some rules action e :
  ruleOf rules action = Some e
  ↔ ∃ pre post, rules = pre ++ (action, e) :: post ∧ ∀ e', (action, e') ∉ pre.
Proof.
  induction rules as [|[a e0] rules IH]; simpl.
  - split; [done|]. intros (pre & post & Hr & _). by destruct pre.
  - case_decide as Ha.
    + subst a. split.
      * intros [= ->]. exists [], rules. split; [done|]. intros e'. apply not_elem_of_nil.
      * intros (pre & post & Hr & Hpre). destruct pre as [|x pre]; simpl in Hr.
        -- congruence.
        -- injection Hr as <- _. destruct (Hpre e0). apply elem_of_cons. by left.
    + rewrite IH. split.
      * intros (pre & post & -> & Hpre). exists ((a, e0) :: pre), post.
        split; [done|]. intros e' [He|He]%elem_of_cons; [congruence|by apply (Hpre e')].
      * intros (pre & post & Hr & Hpre). destruct pre as [|x pre]; simpl in Hr.
        -- congruence.
        -- injection Hr as <- ->. exists pre, post. split; [done|].
           intros e' He. apply (Hpre e'). apply elem_of_cons. by right.
Qed.

(** The identities that count are those of the signatures that verify. *)
Lemma elem_of_verifiedSigners verifySig sigs digest i :
  i ∈ verifiedSigners verifySig sigs digest
  ↔ ∃ s, s ∈ sigs ∧ Signer s = i ∧ verifySig i digest (Sig s) = true.
Proof.
  unfold verifiedSigners. rewrite list_elem_of_fmap. split.
  - intros (s & -> & Hs). apply list_elem_of_filter in Hs as [Hv Hs]. by exists s.
  - intros (s & Hs & <- & Hv). exists s. split; [done|].
    by apply list_elem_of_filter.
Qed.

Lemma satisfies_threshold ids k es :
  satisfies ids (EThreshold k es) = true
  ↔ (k ≤ length (filter (λ e, satisfies ids e = true) es))%nat.
Proof.
  simpl. rewrite bool_decide_eq_true.
  assert (E : length (filter (λ b : bool, b = true) (map (satisfies ids) es))
              = length (filter (λ e, satisfies ids e = true) es)).
  { induction es as [|e es IH]; [done|]. simpl.
    rewrite !filter_cons. destruct (satisfies ids e) eqn:He.
    - rewrite !decide_True by done. simpl. by rewrite IH.
    - rewrite !decide_False by done. done. }
  by rewrite E.
Qed.



End DarcFacts.

(** * Properties of reading, storing and loading the collection *)

Module CollectionDBFacts.

Import Skipchain CollectionDB.

Lemma cursor_elem (b : gmap bytes bytes) k v :
  (k, v) ∈ cursor b ↔ b !! k = Some v.
Proof.
  unfold cursor. rewrite merge_sort_Permutation. apply elem_of_map_to_list.
Qed.

Lemma cursor_NoDup (b : gmap bytes bytes) : NoDup (cursor b).*1.
Proof.
  unfold cursor. rewrite merge_sort_Permutation. apply NoDup_fst_map_to_list.
Qed.

Lemma dbKey_inj lead lead' id id' :
  dbKey lead id = dbKey lead' id' → lead = lead' ∧ id = id'.
Proof. unfold dbKey. by intros [= -> ->]. Qed.

(** The loop of [loadAll] on pairs of a bucket that mirrors [c]: every
    instance whose value key is among the pairs is loaded as [c] has it. *)
Lemma loadLoop_mirrors b c cur : ∀ acc,
  mirrors b c →
  NoDup cur.*1 →
  (∀ k v, (k, v) ∈ cur → b !! k = Some v) →
  (∀ id, is_Some (acc !! id) → dbKey x00 id ∉ cur.*1) →
  ∃ acc', loadLoop b cur acc = (acc', Returned None)
    ∧ ∀ id, acc' !! id = if decide (dbKey x00 id ∈ cur.*1) then c !! id else acc !! id.
Proof.
  induction cur as [|[k v] cur IH]; intros acc Hm Hnd Hin Hacc.
  - exists acc. split; [done|]. intros id. rewrite decide_False; [done|].
    simpl. apply not_elem_of_nil.
  - apply NoDup_cons in Hnd as [Hk Hnd].
    assert (Hkv : b !! k = Some v) by (apply Hin; left).
    assert (Hin' : ∀ k' v', (k', v') ∈ cur → b !! k' = Some v')
      by (intros k' v' ?; apply Hin; by right).
    destruct Hm as [Hm1 Hm2].
    destruct (Hm2 _ _ Hkv) as (lead & id & -> & Hlead & [r Hr]).
    simpl. destruct (decide (lead ≠ x00)) as [Hne|Heq].
    + destruct (IH acc) as (acc' & Hrun & Hacc'); [done..| |].
      { intros id' Hid' Hel. apply (Hacc id' Hid'). simpl. by right. }
      exists acc'. split; [done|]. intros id'. rewrite Hacc'.
      destruct (decide (dbKey x00 id' ∈ cur.*1)) as [Hel|Hel].
      * rewrite decide_True; [done|]. simpl. by right.
      * rewrite decide_False; [done|]. simpl. intros [Hh|Ht]%elem_of_cons; [|done].
        apply dbKey_inj in Hh as [<- _]. done.
    + assert (lead = x00) as -> by (by destruct (decide (lead = x00)); [|exfalso; auto]).
      destruct (Hm1 _ _ Hr) as (Hv & Hc & Hd).
      unfold dbKey in *. rewrite Hc, Hd.
      assert (v = rValue r) as -> by congruence.
      unfold Add. destruct (acc !! id) as [r'|] eqn:Haccid.
      { exfalso. apply (Hacc id); [by eexists|]. simpl. by left. }
      destruct (IH (<[id := mkRecord (rValue r) (rContractID r) (rDarcID r)]> acc))
        as (acc' & Hrun & Hacc'); [done..| |].
      { intros id' [r' Hid'] Hel.
        destruct (decide (id = id')) as [<-|Hne]; [done|].
        rewrite lookup_insert_ne in Hid' by done.
        apply (Hacc id'); [by eexists|]. simpl. by right. }
      exists acc'. split; [done|]. intros id'. rewrite Hacc'.
      destruct (decide (id = id')) as [<-|Hne].
      * rewrite decide_False by done. rewrite lookup_insert_eq.
        rewrite decide_True by (simpl; by left). rewrite Hr. by destruct r.
      * rewrite lookup_insert_ne by done.
        destruct (decide ((x00 :: id') ∈ cur.*1)) as [Hel|Hel].
        -- rewrite decide_True; [done|]. simpl. by right.
        -- rewrite decide_False; [done|]. simpl.
           intros [Hh|Ht]%elem_of_cons; [|done]. by injection Hh as <-.
Qed.

(** The loop of [loadAll] does not end well when a value key among the
    pairs lacks a sibling. *)
Lemma loadLoop_torn b id v cur : ∀ acc,
  (dbKey x00 id, v) ∈ cur →
  b !! dbKey x01 id = None ∨ b !! dbKey x02 id = None →
  (loadLoop b cur acc).2 ≠ Returned None.
Proof.
  induction cur as [|[k v'] cur IH]; intros acc Hel Hmiss.
  - by apply elem_of_nil in Hel.
  - apply elem_of_cons in Hel as [[= <- <-]|Hel].
    + unfold dbKey in *. simpl.
      destruct (b !! (x01 :: id)) as [cv|]; [|done].
      destruct (b !! (x02 :: id)) as [dv|]; [|done].
      by destruct Hmiss.
    + simpl. destruct k as [|lead id']; [done|].
      destruct (decide (lead ≠ x00)); [by apply IH|].
      destruct (b !! (x01 :: id')) as [cv|]; [|done].
      destruct (b !! (x02 :: id')) as [dv|]; [|done].
      destruct (Add acc id' _) as [err|c']; [done|]. by apply IH.
Qed.

Lemma lead_cases (lead : byte) :
  lead ∈ [x00; x01; x02] → lead = x00 ∨ lead = x01 ∨ lead = x02.
Proof. rewrite !elem_of_cons, elem_of_nil. tauto. Qed.

Lemma lookup_put3_ne b id v cv dv lead id' :
  id ≠ id' → put3 b id v cv dv !! dbKey lead id' = b !! dbKey lead id'.
Proof.
  intros Hne. unfold put3, dbKey.
  rewrite !lookup_insert_ne; [done|congruence..].
Qed.

Lemma lookup_put3_eq b id v cv dv :
  put3 b id v cv dv !! dbKey x00 id = Some v
  ∧ put3 b id v cv dv !! dbKey x01 id = Some cv
  ∧ put3 b id v cv dv !! dbKey x02 id = Some dv.
Proof.
  unfold put3, dbKey. split; [|split].
  - rewrite !lookup_insert_ne by congruence. apply lookup_insert_eq.
  - rewrite lookup_insert_ne by congruence. apply lookup_insert_eq.
  - apply lookup_insert_eq.
Qed.

Lemma lookup_put3_Some b id v cv dv k x :
  put3 b id v cv dv !! k = Some x →
  (∃ lead, k = dbKey lead id ∧ lead ∈ [x00; x01; x02]) ∨ b !! k = Some x.
Proof.
  unfold put3. rewrite !lookup_insert.
  repeat case_decide; subst; intros Hx.
  - left. exists x02. split; [done|]. set_solver.
  - left. exists x01. split; [done|]. set_solver.
  - left. exists x00. split; [done|]. set_solver.
  - by right.
Qed.

Lemma lookup_delete3_ne b id lead id' :
  id ≠ id' → delete3 b id !! dbKey lead id' = b !! dbKey lead id'.
Proof.
  intros Hne. unfold delete3, dbKey.
  rewrite !lookup_delete_ne; [done|congruence..].
Qed.

Lemma lookup_delete3_Some b id k x :
  delete3 b id !! k = Some x →
  b !! k = Some x ∧ ∀ lead, lead ∈ [x00; x01; x02] → k ≠ dbKey lead id.
Proof.
  unfold delete3. rewrite !lookup_delete.
  repeat case_decide; subst; try done. intros Hx. split; [done|].
  intros lead Hl%lead_cases. destruct Hl as [-> | [-> | ->]]; congruence.
Qed.

(** What a successful [Store] does to the collection and to the bucket. *)
Lemma Store_None c sc :
  (Store c sc).2 = None →
  Bolt.opened (db (Store c sc).1) = Bolt.opened (db c)
  ∧ ((scAction sc = Create ∧ coll c !! InstanceID sc = None ∨
      scAction sc = Update ∧ is_Some (coll c !! InstanceID sc))
     ∧ coll (Store c sc).1 = <[InstanceID sc := sc_record sc]> (coll c)
     ∧ Bolt.bucket (db (Store c sc).1)
       = put3 (Bolt.bucket (db c)) (InstanceID sc) (Value sc) (ContractID sc) (DarcID sc)
     ∨ scAction sc = Remove_ ∧ is_Some (coll c !! InstanceID sc)
       ∧ coll (Store c sc).1 = delete (InstanceID sc) (coll c)
       ∧ Bolt.bucket (db (Store c sc).1) = delete3 (Bolt.bucket (db c)) (InstanceID sc)).
Proof.
  unfold Store, storeInColl. destruct c as [[op b] cl]. simpl.
  unfold Bolt.Update. simpl.
  destruct (scAction sc) eqn:Hact; simpl; [| | |done].
  - unfold Add. destruct (cl !! InstanceID sc) eqn:Hk; [done|].
    destruct op; simpl; [|done].
    unfold storeTx. rewrite Hact. unfold Bolt.Put.
    repeat (case_decide; simpl; try done).
    intros _. split; [done|]. left. split; [by left|]. done.
  - unfold Set_. destruct (cl !! InstanceID sc) eqn:Hk; [|done].
    destruct op; simpl; [|done].
    unfold storeTx. rewrite Hact. unfold Bolt.Put.
    repeat (case_decide; simpl; try done).
    intros _. split; [done|]. left. split; [right; by eauto|]. done.
  - unfold Remove. destruct (cl !! InstanceID sc) eqn:Hk; [|done].
    destruct op; simpl; [|done].
    unfold storeTx. rewrite Hact. unfold Bolt.Delete. simpl.
    intros _. split; [done|]. right. split; [done|]. split; [by eauto|]. done.
Qed.

Lemma mirrors_put3 b c id r :
  mirrors b c →
  mirrors (put3 b id (rValue r) (rContractID r) (rDarcID r)) (<[id := r]> c).
Proof.
  intros [Hm1 Hm2]. split.
  - intros id' r'. rewrite lookup_insert. case_decide as Hid.
    + intros [= <-]. subst id'. apply lookup_put3_eq.
    + intros Hr. rewrite !lookup_put3_ne by done. by apply Hm1.
  - intros k x [(lead & -> & Hl)|Hx]%lookup_put3_Some.
    + exists lead, id. split; [done|]. split; [done|]. by rewrite lookup_insert_eq.
    + destruct (Hm2 _ _ Hx) as (lead & id' & -> & Hl & His).
      exists lead, id'. split; [done|]. split; [done|].
      rewrite lookup_insert. by case_decide.
Qed.

Lemma mirrors_delete3 b c id :
  mirrors b c → mirrors (delete3 b id) (delete id c).
Proof.
  intros [Hm1 Hm2]. split.
  - intros id' r'. rewrite lookup_delete. case_decide as Hid; [done|].
    intros Hr. rewrite !lookup_delete3_ne by done. by apply Hm1.
  - intros k x [Hx Hk]%lookup_delete3_Some.
    destruct (Hm2 _ _ Hx) as (lead & id' & -> & Hl & His).
    exists lead, id'. split; [done|]. split; [done|].
    rewrite lookup_delete. case_decide as Hid; [|done]. subst id'.
    by destruct (Hk lead Hl).
Qed.

(** One successful [Store] keeps the bucket a mirror of the collection. *)
Lemma mirrors_Store c sc :
  mirrors (Bolt.bucket (db c)) (coll c) →
  (Store c sc).2 = None →
  mirrors (Bolt.bucket (db (Store c sc).1)) (coll (Store c sc).1)
  ∧ Bolt.opened (db (Store c sc).1) = Bolt.opened (db c).
Proof.
  intros Hm Hok.
  destruct (Store_None c sc Hok) as [Hop [(_ & Hc & Hb)|(_ & _ & Hc & Hb)]];
    rewrite Hc, Hb; (split; [|done]).
  - apply (mirrors_put3 _ _ _ (sc_record sc)), Hm.
  - apply mirrors_delete3, Hm.
Qed.

Lemma mirrors_empty : mirrors ∅ ∅.
Proof. split; intros ? ?; by rewrite lookup_empty. Qed.

Lemma mirrors_StoreAll ts : ∀ c c',
  mirrors (Bolt.bucket (db c)) (coll c) →
  StoreAll c ts = (c', None) →
  mirrors (Bolt.bucket (db c')) (coll c')
  ∧ Bolt.opened (db c') = Bolt.opened (db c).
Proof.
  induction ts as [|sc ts IH]; intros c c' Hm; simpl.
  - by intros [= <-].
  - destruct (Store c sc) as [c1 [err|]] eqn:Hst; [done|].
    intros Hall.
    destruct (mirrors_Store c sc Hm) as [Hm1 Hop1]; [by rewrite Hst|].
    rewrite Hst in Hm1, Hop1. simpl in Hm1, Hop1.
    destruct (IH c1 c' Hm1 Hall) as [Hm' Hop']. split; [done|congruence].
Qed.

Lemma GetValues_lookup c key :
  GetValues c key =
    match coll c !! key with
    | None => inl NoMatch
    | Some r => inr (rValue r, rContractID r, rDarcID r)
    end.
Proof. unfold GetValues, recordValues. by destruct (coll c !! key). Qed.

(** X1. After changes stored one after the other without error, starting
    from a bucket that holds the collection, what [GetValues] returns for an
    instance is what the bucket holds under its three keys, and an instance
    that [GetValues] does not find has no value key in the bucket. *)
Theorem StoreAll_bucket_agrees (c c' : collectionDB) (ts : list StateChange) :
  mirrors (Bolt.bucket (db c)) (coll c) →
  StoreAll c ts = (c', None) →
  ∀ id v cid did,
    GetValues c' id = inr (v, cid, did)
    ↔ Bolt.bucket (db c') !! dbKey x00 id = Some v
      ∧ Bolt.bucket (db c') !! dbKey x01 id = Some cid
      ∧ Bolt.bucket (db c') !! dbKey x02 id = Some did.
Proof.
  intros Hm Hall id v cid did.
  destruct (mirrors_StoreAll ts c c' Hm Hall) as [[Hm1 Hm2] _].
  rewrite GetValues_lookup. split.
  - destruct (coll c' !! id) as [r|] eqn:Hr; [|done].
    intros [= <- <- <-]. by apply Hm1.
  - intros (Hv & Hc & Hd).
    destruct (Hm2 _ _ Hv) as (lead & id' & [= <- <-] & _ & [r Hr]).
    rewrite Hr. destruct (Hm1 _ _ Hr) as (Hv' & Hc' & Hd'). congruence.
Qed.

Lemma StoreAll_bucket_agrees_witness :
  GetValues cdb_stored_ab key_b = inr (val_2, cid_dummy, darc_0)
  ∧ Bolt.bucket (db cdb_stored_ab) !! dbKey x02 key_b = Some darc_0.
Proof.
  assert (Hrun : StoreAll cdb_empty [sc_create_a; sc_create_b] = (cdb_stored_ab, None))
    by (vm_compute; reflexivity).
  assert (Hg : GetValues cdb_stored_ab key_b = inr (val_2, cid_dummy, darc_0))
    by (vm_compute; reflexivity).
  split; [exact Hg|].
  apply (proj1 (StoreAll_bucket_agrees cdb_empty cdb_stored_ab [sc_create_a; sc_create_b]
                  mirrors_empty Hrun key_b val_2 cid_dummy darc_0) Hg).
Defined.

(** X2. A collection that an open database mirrors is what a restart gets
    back: [newCollectionDB] on that database returns the same collection. *)
Theorem newCollectionDB_restores (c : collectionDB) :
  Bolt.opened (db c) = true →
  mirrors (Bolt.bucket (db c)) (coll c) →
  newCollectionDB (db c) = Returned c.
Proof.
  intros Hop Hm. unfold newCollectionDB, loadAll. simpl. rewrite Hop.
  destruct (loadLoop_mirrors (Bolt.bucket (db c)) (coll c)
              (cursor (Bolt.bucket (db c))) ∅ Hm (cursor_NoDup _))
    as (acc' & Hrun & Hacc').
  { intros k v. apply cursor_elem. }
  { intros id [r Hr]. by rewrite lookup_empty in Hr. }
  rewrite Hrun. simpl. f_equal. destruct c as [d cl]. simpl in *. f_equal.
  apply map_eq. intros id. rewrite Hacc'.
  case_decide as Hel; [done|]. rewrite lookup_empty.
  destruct (cl !! id) as [r|] eqn:Hr; [|done].
  destruct Hm as [Hm1 _]. destruct (Hm1 _ _ Hr) as (Hv & _).
  exfalso. apply Hel. apply (list_elem_of_fmap_2 fst _ (dbKey x00 id, rValue r)).
  by apply cursor_elem.
Qed.

Lemma newCollectionDB_restores_witness :
  newCollectionDB (db (StoreAll cdb_empty [sc_create_a; sc_create_b; sc_update_a]).1)
  = Returned (StoreAll cdb_empty [sc_create_a; sc_create_b; sc_update_a]).1.
Proof.
  apply newCollectionDB_restores.
  - vm_compute. reflexivity.
  - eapply (mirrors_StoreAll [sc_create_a; sc_create_b; sc_update_a] cdb_empty).
    + apply mirrors_empty.
    + vm_compute. reflexivity.
Defined.

(** X3. When the bucket has the value key of an instance but lacks its
    contract key or its darc key, [loadAll] on the open database does not
    return nil: it ends with an error (or panics before it gets there). *)
Theorem loadAll_missing_sibling (c : collectionDB) (id v : bytes) :
  Bolt.opened (db c) = true →
  Bolt.bucket (db c) !! dbKey x00 id = Some v →
  Bolt.bucket (db c) !! dbKey x01 id = None
    ∨ Bolt.bucket (db c) !! dbKey x02 id = None →
  (loadAll c).2 ≠ Returned None.
Proof.
  intros Hop Hv Hmiss. unfold loadAll. rewrite Hop.
  pose proof (loadLoop_torn (Bolt.bucket (db c)) id v (cursor (Bolt.bucket (db c)))
                (coll c)) as Htorn.
  destruct (loadLoop _ _ _) as [coll' res]. simpl in *.
  apply Htorn; [|done]. by apply cursor_elem.
Qed.

Lemma loadAll_missing_sibling_witness :
  (loadAll (mkCollectionDB (Bolt.mkDB true bucket_torn) ∅)).2 ≠ Returned None.
Proof.
  apply (loadAll_missing_sibling _ key_b val_2).
  - reflexivity.
  - vm_compute. reflexivity.
  - left. vm_compute. reflexivity.
Defined.

(** X4. After a [Store] that returns nil, [GetValues] on the instance of the
    change returns the value, the contract id and the darc id of the change
    when it was a create or an update, and an error when it was a remove;
    for every other key [GetValues] returns what it returned before. *)
Theorem GetValues_after_Store (c : collectionDB) (sc : StateChange) :
  (Store c sc).2 = None →
  (scAction sc ≠ Remove_ →
     GetValues (Store c sc).1 (InstanceID sc)
       = inr (Value sc, ContractID sc, DarcID sc))
  ∧ (scAction sc = Remove_ →
       GetValues (Store c sc).1 (InstanceID sc) = inl NoMatch)
  ∧ ∀ key, key ≠ InstanceID sc →
       GetValues (Store c sc).1 key = GetValues c key.
Proof.
  intros Hok. rewrite !GetValues_lookup.
  destruct (Store_None c sc Hok) as [_ [(Hact & Hc & _)|(Hact & _ & Hc & _)]];
    rewrite Hc.
  - split; [|split].
    + intros _. by rewrite lookup_insert_eq.
    + intros Hrm. destruct Hact as [[Ha _]|[Ha _]]; congruence.
    + intros key Hne. rewrite !GetValues_lookup, Hc. by rewrite lookup_insert_ne.
  - split; [|split].
    + done.
    + intros _. by rewrite lookup_delete_eq.
    + intros key Hne. rewrite !GetValues_lookup, Hc. by rewrite lookup_delete_ne.
Qed.

Lemma GetValues_after_Store_witness :
  GetValues (Store cdb_with_a sc_update_a).1 key_a = inr (val_2, cid_dummy, darc_0)
  ∧ GetValues (Store cdb_with_a sc_remove_a).1 key_a = inl NoMatch.
Proof.
  split.
  - apply (GetValues_after_Store cdb_with_a sc_update_a); [vm_compute; reflexivity|].
    discriminate.
  - apply (GetValues_after_Store cdb_with_a sc_remove_a); [vm_compute|]; reflexivity.
Defined.

(** X5. [GetValues] and [GetValueContract] never fail on a type check and
    never panic: each returns an error exactly when the key is not in the
    collection, and on a key that is there [GetValueContract] returns the
    first two of the three values [GetValues] returns. *)
Theorem readers_agree (c : collectionDB) (key : bytes) :
  (∀ e, GetValues c key = inl e ↔ coll c !! key = None ∧ e = NoMatch)
  ∧ GetValueContract c key
    = Returned match GetValues c key with
               | inl e => inl e
               | inr (value, contract, _) => inr (value, contract)
               end.
Proof.
  unfold GetValueContract, getValueContract. rewrite GetValues_lookup.
  unfold recordValues. destruct (coll c !! key) as [r|]; simpl.
  - split; [|done]. intros e. split; [done|]. by intros [? _].
  - split; [|done]. intros e. split; [by intros [= <-]|]. by intros [_ ->].
Qed.

Lemma fresh_keys_cons c sc ts :
  fresh_keys c (sc :: ts)
  ↔ c !! InstanceID sc = None ∧ fresh_keys (<[InstanceID sc := sc_record sc]> c) ts.
Proof.
  unfold fresh_keys. simpl. rewrite NoDup_cons, Forall_cons. split.
  - intros [[Hnin Hnd] [Hk Hall]]. split; [done|]. split; [done|].
    apply Forall_forall. intros sc' Hsc'.
    rewrite lookup_insert_ne.
    + by apply (proj1 (Forall_forall _ _) Hall).
    + intros Heq. apply Hnin. rewrite Heq. by apply list_elem_of_fmap_2.
  - intros [Hk [Hnd Hall]]. split; [split; [|done]|split; [done|]].
    + intros (sc' & Heq & Hsc')%list_elem_of_fmap_1.
      pose proof (proj1 (Forall_forall _ _) Hall sc' Hsc') as Hn.
      simpl in Hn. by rewrite <- Heq, lookup_insert_eq in Hn.
    + apply Forall_forall. intros sc' Hsc'.
      pose proof (proj1 (Forall_forall _ _) Hall sc' Hsc') as Hn. simpl in Hn.
      apply lookup_insert_None in Hn. by destruct Hn.
Qed.

Lemma tryHash_loop_fresh ts : ∀ c ds,
  fresh_keys c ts →
  ∃ ds1, tryHash_loop c ts ds = (addAll c ts, ds1, None).
Proof.
  induction ts as [|sc ts IH]; intros c ds Hf; simpl.
  - by eexists.
  - apply fresh_keys_cons in Hf as [Hk Hf]. unfold Add. rewrite Hk. by apply IH.
Qed.

Lemma tryHash_loop_collision ts : ∀ c ds,
  ¬ fresh_keys c ts →
  ∃ c1 ds1, tryHash_loop c ts ds = (c1, ds1, Some (ErrColl KeyCollision)).
Proof.
  induction ts as [|sc ts IH]; intros c ds Hnf; simpl.
  - exfalso. apply Hnf. split; [constructor|constructor].
  - unfold Add. destruct (c !! InstanceID sc) eqn:Hk; [by eexists _, _|].
    apply IH. intros Hf. apply Hnf. by apply fresh_keys_cons.
Qed.

(** X6. [tryHash] returns a root exactly when the keys of the changes are
    new to the collection and differ from one another, and the root is then
    that of the collection with every pair added, whatever the actions of
    the changes; in every other case it returns the collision error and a
    nil root.  Either way the collection is as before. *)
Theorem tryHash_root_or_collision (GetRoot : Collection → bytes)
    (c : collectionDB) (ts : list StateChange) :
  (fresh_keys (coll c) ts →
     tryHash GetRoot c ts = (c, (GetRoot (addAll (coll c) ts), None)))
  ∧ (¬ fresh_keys (coll c) ts →
       tryHash GetRoot c ts = (c, ([], Some (ErrColl KeyCollision)))).
Proof.
  split.
  - intros Hf. destruct (tryHash_loop_fresh ts (coll c) [] Hf) as [ds1 Hloop].
    rewrite (tryHash_unfold GetRoot _ _ _ _ _ Hloop). by destruct c.
  - intros Hnf.
    destruct (tryHash_loop_collision ts (coll c) [] Hnf) as (c1 & ds1 & Hloop).
    rewrite (tryHash_unfold GetRoot _ _ _ _ _ Hloop). by destruct c.
Qed.

Lemma tryHash_root_or_collision_witness :
  tryHash listRoot cdb_with_a [sc_create_b; sc_remove_a]
    = (cdb_with_a, ([], Some (ErrColl KeyCollision)))
  ∧ (tryHash listRoot cdb_empty [sc_update_a; sc_create_b]).2.2 = None.
Proof.
  split.
  - apply (tryHash_root_or_collision listRoot cdb_with_a [sc_create_b; sc_remove_a]).
    intros [_ Hall]. apply Forall_cons in Hall as [_ Hall].
    apply Forall_cons in Hall as [Ha _]. vm_compute in Ha. discriminate.
  - rewrite (proj1 (tryHash_root_or_collision listRoot cdb_empty
                      [sc_update_a; sc_create_b])); [reflexivity|].
    split.
    + apply NoDup_cons. split; [|apply NoDup_singleton].
      intros Hin. apply list_elem_of_singleton in Hin. discriminate.
    + repeat constructor.
Defined.

Lemma Store_None_opened c sc : (Store c sc).2 = None → Bolt.opened (db c) = true.
Proof.
  unfold Store. destruct (storeInColl (coll c) sc); [done|].
  unfold Bolt.Update. by destruct (Bolt.opened (db c)).
Qed.

Lemma delete3_put3 b id v cv dv :
  (∀ lead, lead ∈ [x00; x01; x02] → b !! dbKey lead id = None) →
  delete3 (put3 b id v cv dv) id = b.
Proof.
  intros Hnone. apply map_eq. intros j. unfold delete3, put3.
  rewrite !lookup_delete, !lookup_insert.
  repeat case_decide; subst; try done; symmetry; apply Hnone; set_solver.
Qed.

(** X7. On a collection that the bucket mirrors, a create that [Store]
    accepts followed by a remove of the same instance is accepted too and
    leaves collection and bucket exactly as they were before the create. *)
Theorem Store_create_then_remove (c : collectionDB) (sc rm : StateChange) :
  mirrors (Bolt.bucket (db c)) (coll c) →
  scAction sc = Create →
  scAction rm = Remove_ →
  InstanceID rm = InstanceID sc →
  (Store c sc).2 = None →
  Store (Store c sc).1 rm = (c, None).
Proof.
  intros [_ Hm2] Hcr Hrm Hid Hok.
  pose proof (Store_None_opened c sc Hok) as Hop.
  destruct (Store_None c sc Hok) as [Hop1 [([[_ Hk]|[Hup _]] & Hc & Hb)|(Hact & _)]];
    [|congruence|congruence].
  destruct (Store c sc) as [[[op1 b1] cl1] e1]. simpl in *. subst op1 cl1 b1.
  destruct c as [[op b] cl]. simpl in *. subst op.
  unfold Store, storeInColl. simpl. rewrite Hrm, Hid. unfold Remove.
  rewrite lookup_insert_eq. unfold Bolt.Update. simpl.
  unfold storeTx. rewrite Hrm, Hid. unfold Bolt.Delete. simpl.
  change (delete (dbKey x02 (InstanceID sc)) (delete (dbKey x01 (InstanceID sc))
            (delete (dbKey x00 (InstanceID sc)) ?m)))
    with (delete3 m (InstanceID sc)).
  rewrite delete3_put3, delete_insert_id; [done..|].
  intros lead Hl. destruct (b !! dbKey lead (InstanceID sc)) as [x|] eqn:Hx; [|done].
  destruct (Hm2 _ _ Hx) as (lead' & id' & [= <- <-] & _ & [r Hr]). congruence.
Qed.

Lemma Store_create_then_remove_witness :
  Store (Store cdb_stored_a sc_create_b).1
        (mkStateChange Remove_ key_b [] [] []) = (cdb_stored_a, None).
Proof.
  apply Store_create_then_remove; try reflexivity.
  apply (mirrors_Store cdb_empty sc_create_a); [apply mirrors_empty|].
  vm_compute. reflexivity.
Defined.

End CollectionDBFacts.

(** * Properties of the other calls of the skipchain service *)

Module SkipchainCallsFacts.

Import Skipchain SkipchainCalls.

Lemma thenReturn_not_error {A} (o : Outcome A) (r : ProposedSkipBlockReply) (e : error) :
  thenReturn o (@inr error _ r) ≠ Returned (inl e).
Proof. by destruct o. Qed.

Section Facts.

Variable calcHash : SkipBlock → SkipBlockID.

(** The step of the invariant: a call of [ProposeSkipBlock] keeps every
    stored block well formed. *)
Lemma block_wf_propose s latest proposed rnd :
  (∀ k b, SkipBlocks s !! k = Some b → block_wf calcHash k b) →
  ∀ k b, SkipBlocks (ProposeSkipBlock calcHash s latest proposed rnd).1 !! k = Some b →
         block_wf calcHash k b.
Proof.
  intros Hs k b.
  destruct (SkipchainFacts.ProposeSkipBlock_cases calcHash s latest proposed rnd)
    as [[_ ->]|[[e ->]|(prev & _ & Hprev & ->)]]; [| by apply Hs |];
    unfold genesisStore, nextStore; cbn [fst SkipBlocks].
  - rewrite lookup_insert. case_decide as Hk; [|by apply Hs].
    intros [= <-]. subst k. by repeat split.
  - destruct (Hs _ _ Hprev) as (Hh & Hk' & Hht & Hbl & Hv).
    rewrite lookup_insert. case_decide as Hk.
    { intros [= <-]. subst k. by repeat split. }
    rewrite lookup_insert. case_decide as Hl; [|by apply Hs].
    intros [= <-]. subst k. by repeat split.
Qed.

Lemma reachable_wf s :
  reachable calcHash s → ∀ k b, SkipBlocks s !! k = Some b → block_wf calcHash k b.
Proof.
  induction 1 as [|s latest proposed rnd _ IH].
  - intros k b. simpl. by rewrite lookup_empty.
  - by apply block_wf_propose.
Qed.

(** When [ProposeSkipBlock] returns an error. *)
Lemma ProposeSkipBlock_error s latest proposed rnd e :
  (ProposeSkipBlock calcHash s latest proposed rnd).2 = Returned (inl e)
  ↔ length latest ≠ 0%nat
    ∧ (SkipBlocks s !! latest = None ∧ e = ErrLatestNotFound
       ∨ ∃ prev, SkipBlocks s !! latest = Some prev
                 ∧ VerifierId prev ≠ VerifyNone ∧ e = ErrVerificationFailed).
Proof.
  unfold ProposeSkipBlock.
  destruct (decide (length latest = 0%nat)) as [Hlen|Hlen].
  { cbn [snd]. split.
    - intros Hr. by apply thenReturn_not_error in Hr.
    - by intros [? _]. }
  destruct (SkipBlocks s !! latest) as [prev|] eqn:Hprev.
  - unfold verifyNewSkipBlock. cbn [VerifierId set_VerifierId].
    destruct (decide (VerifierId prev = VerifyNone)) as [Hv|Hv].
    + rewrite bool_decide_true by done. cbn [snd]. split.
      * intros Hr. by apply thenReturn_not_error in Hr.
      * intros [_ [[? _]|(prev' & [= <-] & ? & _)]]; done.
    + rewrite bool_decide_false by done. cbn [snd]. split.
      * intros [= <-]. split; [done|]. right. by exists prev.
      * intros [_ [[? _]|(prev' & _ & _ & ->)]]; done.
  - cbn [snd]. split.
    + intros [= <-]. split; [done|]. by left.
    + intros [_ [[_ ->]|(prev' & ? & _)]]; done.
Qed.

Lemma walk0_followForward s b n b' :
  walk0 s b n b' →
  ∀ fuel acc, ∃ acc',
    followForward (n + fuel) s b acc = followForward fuel s b' acc'.
Proof.
  induction 1 as [b|b link links b1 n b2 Hb Hb1 _ IH]; intros fuel acc.
  - by exists acc.
  - simpl. rewrite Hb. unfold getSkipBlockByID. rewrite Hb1. apply IH.
Qed.

(** From a block that can reach a block on a level-0 cycle, the loop of
    [GetUpdateChain] uses up any fuel. *)
Lemma followForward_cycle s c n :
  walk0 s c (S n) c →
  ∀ fuel b m acc, walk0 s b m c → followForward fuel s b acc = None.
Proof.
  intros Hcyc. induction fuel as [|fuel IH]; intros b m acc Hreach.
  - simpl. destruct Hreach as [b|b link links b1 m b2 Hb _ _].
    + inversion Hcyc as [|? link links b1 ? ? Hb]; subst. by rewrite Hb.
    + by rewrite Hb.
  - simpl. destruct Hreach as [b|b link links b1 m b2 Hb Hb1 Hrest].
    + inversion Hcyc as [|? link links b1 ? ? Hb Hb1 Hrest]; subst.
      rewrite Hb. unfold getSkipBlockByID. rewrite Hb1. by eapply IH.
    + rewrite Hb. unfold getSkipBlockByID. rewrite Hb1. by eapply IH.
Qed.

End Facts.



(** X10. In a state that calls of [ProposeSkipBlock] lead to, a proposal is
    never refused by the verification: the only error [ProposeSkipBlock]
    returns is that no block is stored under a [latest] that is not
    empty. *)
Theorem reachable_only_unknown_latest (calcHash : SkipBlock → SkipBlockID)
    (s : Service) (latest : SkipBlockID) (proposed : SkipBlock) (rnd : bytes)
    (e : error) :
  reachable calcHash s →
  ((ProposeSkipBlock calcHash s latest proposed rnd).2 = Returned (inl e)
   ↔ length latest ≠ 0%nat ∧ SkipBlocks s !! latest = None ∧ e = ErrLatestNotFound).
Proof.
  intros Hreach. rewrite ProposeSkipBlock_error. split.
  - intros [Hlen [[Hnone ->]|(prev & Hprev & Hv & _)]]; [done|].
    by destruct (reachable_wf calcHash s Hreach _ _ Hprev) as (_ & _ & _ & _ & ?).
  - intros (Hlen & Hnone & ->). split; [done|]. by left.
Qed.

Lemma reachable_only_unknown_latest_witness :
  (ProposeSkipBlock fieldsHash s_fork1 id_genesis
     (set_VerifierId (VerifyOther 3) (blankBlock [x35])) []).2
  ≠ Returned (inl ErrVerificationFailed).
Proof.
  intros Hr.
  apply (reachable_only_unknown_latest fieldsHash s_fork1) in Hr
    as (_ & _ & Hne).
  - discriminate Hne.
  - repeat apply reachable_propose. apply reachable_new.
Defined.

(** X12. When the level-0 forward links from the named block lead, through
    stored blocks, to a block whose first forward link names a block that is
    not stored, [GetUpdateChain] returns the error of the missing block, as
    soon as the loop may take one turn more than there are links on the
    way. *)
Theorem GetUpdateChain_dangling (s : Service) (latest : SkipBlockID)
    (b b' : SkipBlock) (n : nat) (link : BlockLink) (links : list BlockLink) :
  SkipBlocks s !! latest = Some b →
  walk0 s b n b' →
  ForwardLink b' = link :: links →
  SkipBlocks s !! bl_Hash link = None →
  ∀ fuel, (n < fuel)%nat → GetUpdateChain fuel s latest = Some (inl ErrMissingForward).
Proof.
  intros Hb Hwalk Hb' Hmiss fuel Hfuel.
  unfold GetUpdateChain, getSkipBlockByID. rewrite Hb.
  replace fuel with (n + S (fuel - S n))%nat by lia.
  destruct (walk0_followForward s b n b' Hwalk (S (fuel - S n)) [b]) as [acc' ->].
  simpl. rewrite Hb'. unfold getSkipBlockByID. by rewrite Hmiss.
Qed.

Lemma GetUpdateChain_dangling_witness :
  GetUpdateChain 1 s_dangling id_dangling = Some (inl ErrMissingForward).
Proof.
  eapply (GetUpdateChain_dangling s_dangling id_dangling _ _ 0).
  - vm_compute. reflexivity.
  - apply walk0_O.
  - reflexivity.
  - vm_compute. reflexivity.
  - lia.
Defined.

(** X13. When the level-0 forward links from the named block lead, through
    stored blocks, back to that block, [GetUpdateChain] does not return:
    the loop is still running after any number of turns. *)
Theorem GetUpdateChain_cycle (s : Service) (latest : SkipBlockID)
    (b : SkipBlock) (n : nat) :
  SkipBlocks s !! latest = Some b →
  walk0 s b (S n) b →
  ∀ fuel, GetUpdateChain fuel s latest = None.
Proof.
  intros Hb Hcyc fuel. unfold GetUpdateChain, getSkipBlockByID. rewrite Hb.
  apply (followForward_cycle s b n Hcyc fuel b 0). apply walk0_O.
Qed.

Lemma GetUpdateChain_cycle_witness :
  reachable fieldsHash s_cycle ∧ ∀ fuel, GetUpdateChain fuel s_cycle id_genesis = None.
Proof.
  split; [repeat apply reachable_propose; apply reachable_new|].
  eapply (GetUpdateChain_cycle s_cycle id_genesis _ 1).
  - vm_compute. reflexivity.
  - eapply walk0_S; [reflexivity|vm_compute; reflexivity|].
    eapply walk0_S; [reflexivity|vm_compute; reflexivity|].
    apply walk0_O.
Defined.

Lemma length_zero_nil {A} (l : list A) : length l = 0%nat → l = [].
Proof. by destruct l. Qed.

(** X14. [ForwardSignature] never returns a block and never changes the
    stored blocks: a call that passes every check ends on
    [ForwardLink[currHeight]], an index that is out of range because
    [currHeight] is the length of that slice.  Every call returns an error
    or panics. *)
Theorem ForwardSignature_never_succeeds (VerifySignatures : SkipBlock → bool)
    (makeCapOK : Z → bool) (s : Service) (ToUpdate : SkipBlockID) (Latest : SkipBlock) :
  (ForwardSignature VerifySignatures makeCapOK s ToUpdate Latest).1 = s
  ∧ ∀ b, (ForwardSignature VerifySignatures makeCapOK s ToUpdate Latest).2
           ≠ Returned (inr b).
Proof.
  unfold ForwardSignature.
  destruct (SkipBlocks s !! ToUpdate) as [current|] eqn:Hcur; [|done].
  destruct (VerifySignatures Latest); [|done]. cbn [negb].
  case_decide; [done|].
  assert (Hout : ∀ s0 c, length (ForwardLink c) = length (ForwardLink current) →
            setForwardHash s0 ToUpdate c (length (ForwardLink current)) (Hash Latest)
            = (s0, Panicked)).
  { intros s0 c Hlen. unfold setForwardHash.
    rewrite (proj2 (lookup_ge_None _ _)); [done|lia]. }
  case_decide as Hz.
  - destruct (makeCapOK (Height current)); [|done]. cbn [negb].
    assert (Hsame : set_ForwardLink [] current = current).
    { apply length_zero_nil in Hz. destruct current. simpl in *. by subst. }
    rewrite Hsame, (insert_id _ _ _ Hcur).
    assert (Hs : mkService (SkipBlocks s) = s) by (by destruct s). rewrite Hs.
    destruct (verifyNewSkipBlock current Latest); cbn [negb]; [|done].
    by rewrite Hout.
  - cbn [verifyLinkedSkipBlock negb]. by rewrite Hout.
Qed.

(** X15. Through the handlers [ProposeSkipBlockData] and
    [ProposeSkipBlockRoster], a proposal whose [latest] is nil or empty
    never gets a reply: [ProposeSkipBlock] stores the genesis block, and the
    handler then panics, at the latest on the type assertion on the nil
    previous block of the reply. *)
Theorem handlers_panic_on_genesis (calcHash : SkipBlock → SkipBlockID)
    (s : Service) (latest : SkipBlockID) (proposed : SkipBlock) (rnd : bytes) :
  length latest = 0%nat →
  ProposeSkipBlockData calcHash s latest proposed rnd
    = (genesisStore calcHash s proposed rnd, Panicked)
  ∧ ProposeSkipBlockRoster calcHash s latest proposed rnd
    = (genesisStore calcHash s proposed rnd, Panicked).
Proof.
  intros Hlen. unfold ProposeSkipBlockData, ProposeSkipBlockRoster.
  rewrite (SkipchainFacts.ProposeSkipBlock_genesis calcHash s latest proposed rnd Hlen).
  by destruct (startPropagation _ _).
Qed.

Lemma handlers_panic_on_genesis_witness :
  (ProposeSkipBlockRoster fieldsHash newSkipchainService [] (rosterBlock [[x6e]]) rnd0).2
    = Panicked
  ∧ startPropagation
      (ProposeSkipBlock fieldsHash newSkipchainService [] (rosterBlock [[x6e]]) rnd0).1
      (genesisBlock fieldsHash (rosterBlock [[x6e]]) rnd0)
    = Returned (inr [[x6e]]).
Proof.
  split; [|vm_compute; reflexivity].
  by rewrite (proj2 (handlers_panic_on_genesis fieldsHash newSkipchainService []
                       (rosterBlock [[x6e]]) rnd0 eq_refl)).
Defined.

(** X16. When [ProposeSkipBlockData] returns a reply, [latest] names a
    stored data block and the proposed block is a data block; when
    [ProposeSkipBlockRoster] returns a reply, [latest] names a stored roster
    block and the proposed block is a roster block. *)
Theorem handlers_reply_kinds (calcHash : SkipBlock → SkipBlockID)
    (s s' : Service) (latest : SkipBlockID) (proposed : SkipBlock) (rnd : bytes)
    (p l : SkipBlock) :
  (ProposeSkipBlockData calcHash s latest proposed rnd = (s', Returned (inr (p, l))) →
   ∃ prev d d', SkipBlocks s !! latest = Some prev
                ∧ Body prev = SkipBlockData d ∧ Body proposed = SkipBlockData d')
  ∧ (ProposeSkipBlockRoster calcHash s latest proposed rnd = (s', Returned (inr (p, l))) →
     ∃ prev el el', SkipBlocks s !! latest = Some prev
                    ∧ Body prev = SkipBlockRoster el ∧ Body proposed = SkipBlockRoster el').
Proof.
  unfold ProposeSkipBlockData, ProposeSkipBlockRoster.
  destruct (SkipchainFacts.ProposeSkipBlock_cases calcHash s latest proposed rnd)
    as [[_ ->]|[[e ->]|(prev & _ & Hprev & ->)]].
  - split; by destruct (startPropagation _ _).
  - split; done.
  - split; (destruct (startPropagation _ _); [|done]); cbn.
    + destruct (Body prev) as [d|el] eqn:Hbp; [|done].
      destruct (Body proposed) as [d'|el'] eqn:Hbq; [|done].
      intros _. by exists prev, d, d'.
    + destruct (Body prev) as [d|el] eqn:Hbp; [done|].
      destruct (Body proposed) as [d'|el'] eqn:Hbq; [done|].
      intros _. by exists prev, el, el'.
Qed.

Lemma handlers_reply_kinds_witness :
  ∃ prev d d', SkipBlocks s_genesis !! id_genesis = Some prev
               ∧ Body prev = SkipBlockData d ∧ Body (blankBlock [x31]) = SkipBlockData d'.
Proof.
  eapply (proj1 (handlers_reply_kinds fieldsHash s_genesis _ id_genesis
                   (blankBlock [x31]) [] _ _)).
  vm_compute. reflexivity.
Defined.

End SkipchainCallsFacts.

(** * Properties of the skipchain service on block objects *)

Module SkipchainMemFacts.

Import Skipchain SkipchainMem.

Lemma assign_insert f p (h : gmap ptr SkipBlock) b :
  h !! p = Some b → assign f p h = <[p := f b]> h.
Proof.
  intros Hp. unfold assign. apply map_eq. intros q.
  destruct (decide (p = q)) as [<-|Hne].
  - by rewrite lookup_alter_eq, lookup_insert_eq, Hp.
  - by rewrite lookup_alter_ne, lookup_insert_ne.
Qed.

Lemma deref_Some (h : gmap ptr SkipBlock) p b : h !! p = Some b → deref h p = Returned b.
Proof. intros Hp. unfold deref. by rewrite Hp. Qed.

(** Looking an object up in a memory written as a series of stores. *)
Ltac heap_lookup :=
  repeat first [rewrite lookup_insert_eq | rewrite lookup_insert_ne by done];
  first [reflexivity | eassumption].

(** One store, or one read, in a memory written as a series of stores. *)
Ltac heap_step :=
  first
    [ rewrite insert_insert_eq
    | erewrite (assign_insert _ _ (<[_ := _]> _)) by heap_lookup
    | erewrite (deref_Some (<[_ := _]> _)) by heap_lookup ];
  cbn [bind_outcome fst snd].

Section Facts.

Variable calcHash : SkipBlock → SkipBlockID.

Lemma updateNewSkipBlock_ptr_genesis m p rnd b0 :
  heap m !! p = Some b0 →
  let g := (updateHash calcHash
              (set_BackLink [randBackLink rnd]
                 (set_Index (wrap_int (Index b0 + 1)) (set_Height 1 b0)))).1 in
  updateNewSkipBlock_ptr calcHash m None p rnd
  = Returned (mkServiceMem (<[p := g]> (heap m)) (<[Hash g := p]> (blocksAt m))).
Proof.
  intros Hp g. unfold updateNewSkipBlock_ptr, updateHash_ptr.
  rewrite (deref_Some _ _ _ Hp). cbn [bind_outcome].
  rewrite (assign_insert _ _ _ _ Hp).
  repeat heap_step. reflexivity.
Qed.

Lemma updateNewSkipBlock_ptr_next m prev p rnd pv b0 :
  p ≠ prev →
  heap m !! p = Some b0 →
  heap m !! prev = Some pv →
  let n := (updateHash calcHash
              (set_BackLink [calcHash (hashed pv)]
                 (set_Index (wrap_int (Index pv + 1)) (set_Height 1 b0)))).1 in
  let l := set_ForwardLink [mkBlockLink (Hash n) None]
             (set_Hash (calcHash (hashed pv)) pv) in
  updateNewSkipBlock_ptr calcHash m (Some prev) p rnd
  = Returned (mkServiceMem (<[prev := l]> (<[p := n]> (heap m)))
                           (<[Hash n := p]> (blocksAt m))).
Proof.
  intros Hne Hp Hprev n l. unfold updateNewSkipBlock_ptr, updateHash_ptr.
  rewrite (deref_Some _ _ _ Hp). cbn [bind_outcome].
  rewrite (assign_insert _ _ _ _ Hp).
  repeat heap_step.
  do 2 f_equal.
  apply map_eq. intros q. rewrite !lookup_insert.
  repeat case_decide; try congruence; reflexivity.
Qed.

(** The blocks as a reader sees them, after a store into an object that the
    service does not hold. *)
Lemma lookup_view m k :
  SkipBlocks (view m) !! k = blocksAt m !! k ≫= (λ p, heap m !! p).
Proof. unfold view. cbn [SkipBlocks]. apply lookup_omap. Qed.

Lemma view_insert_fresh m p b :
  ¬ holds m p → view (mkServiceMem (<[p := b]> (heap m)) (blocksAt m)) = view m.
Proof.
  intros Hfresh. unfold view. f_equal. cbn [heap blocksAt].
  apply map_eq. intros k. rewrite !lookup_omap.
  destruct (blocksAt m !! k) as [q|] eqn:Hq; [|done]. simpl.
  rewrite lookup_insert_ne; [done|]. intros <-. apply Hfresh. by exists k.
Qed.

Lemma ProposeSkipBlock_ptr_genesis m latest p rnd b :
  length latest = 0%nat →
  heap m !! p = Some b →
  ProposeSkipBlock_ptr calcHash m latest p rnd
  = (genesisMem calcHash m p b rnd,
     thenReturn (startPropagation_ptr (genesisMem calcHash m p b rnd) p)
                (inr (None, p))).
Proof.
  intros Hlen Hp. unfold ProposeSkipBlock_ptr.
  rewrite decide_True, Hp by done. cbn zeta.
  rewrite (assign_insert _ _ _ _ Hp).
  erewrite updateNewSkipBlock_ptr_genesis by (cbn [heap]; apply lookup_insert_eq).
  cbn [heap blocksAt]. by rewrite insert_insert_eq.
Qed.

Lemma ProposeSkipBlock_ptr_next m latest prev p rnd pv b :
  length latest ≠ 0%nat →
  blocksAt m !! latest = Some prev →
  p ≠ prev →
  heap m !! p = Some b →
  heap m !! prev = Some pv →
  VerifierId pv = VerifyNone →
  ProposeSkipBlock_ptr calcHash m latest p rnd
  = (nextMem calcHash m prev p pv b,
     thenReturn (startPropagation_ptr (nextMem calcHash m prev p pv b) p)
                (inr (Some prev, p))).
Proof.
  intros Hlen Hlatest Hne Hp Hprev Hver. unfold ProposeSkipBlock_ptr.
  rewrite decide_False, Hlatest, Hp, Hprev by done. cbn zeta.
  rewrite (assign_insert _ _ _ _ Hp). cbn [heap].
  rewrite lookup_insert_ne, Hprev, lookup_insert_eq by done.
  unfold verifyNewSkipBlock. cbn [VerifierId set_VerifierId].
  rewrite bool_decide_true by done.
  erewrite (updateNewSkipBlock_ptr_next _ prev p rnd pv)
    by (cbn [heap]; first [done | apply lookup_insert_eq
                          | by rewrite lookup_insert_ne]).
  cbn [heap blocksAt]. by rewrite insert_insert_eq.
Qed.

Lemma ProposeSkipBlock_ptr_refused m latest prev p rnd pv b :
  length latest ≠ 0%nat →
  blocksAt m !! latest = Some prev →
  p ≠ prev →
  heap m !! p = Some b →
  heap m !! prev = Some pv →
  VerifierId pv ≠ VerifyNone →
  ProposeSkipBlock_ptr calcHash m latest p rnd
  = (mkServiceMem (<[p := set_VerifierId (VerifierId pv) b]> (heap m)) (blocksAt m),
     Returned (inl ErrVerificationFailed)).
Proof.
  intros Hlen Hlatest Hne Hp Hprev Hver. unfold ProposeSkipBlock_ptr.
  rewrite decide_False, Hlatest, Hp, Hprev by done. cbn zeta.
  rewrite (assign_insert _ _ _ _ Hp). cbn [heap].
  rewrite lookup_insert_ne, Hprev, lookup_insert_eq by done.
  unfold verifyNewSkipBlock. cbn [VerifierId set_VerifierId].
  by rewrite bool_decide_false.
Qed.

Lemma view_genesisMem m p b rnd :
  ¬ holds m p →
  view (genesisMem calcHash m p b rnd) = genesisStore calcHash (view m) b rnd.
Proof.
  intros Hfresh. unfold view, genesisMem, genesisStore. f_equal.
  cbn [heap blocksAt SkipBlocks].
  apply map_eq. intros k. rewrite lookup_omap, !lookup_insert.
  case_decide as Hk; [simpl; by rewrite lookup_insert_eq|].
  rewrite lookup_omap.
  destruct (blocksAt m !! k) as [q|] eqn:Hq; [|done]. simpl.
  rewrite lookup_insert_ne; [done|]. intros <-. apply Hfresh. by exists k.
Qed.

Lemma view_nextMem m latest prev p pv b :
  separate m → ¬ holds m p →
  blocksAt m !! latest = Some prev →
  heap m !! prev = Some pv →
  view (nextMem calcHash m prev p pv b) = nextStore calcHash (view m) latest pv b.
Proof.
  intros [Hinj _] Hfresh Hlatest Hprev. unfold view, nextMem, nextStore. f_equal.
  cbn [heap blocksAt SkipBlocks].
  assert (Hne : p ≠ prev) by (intros ->; apply Hfresh; by exists latest).
  apply map_eq. intros k. rewrite lookup_omap, !lookup_insert.
  case_decide as Hk.
  { simpl. by rewrite lookup_insert_ne, lookup_insert_eq. }
  case_decide as Hl.
  { subst k. rewrite Hlatest. simpl. by rewrite lookup_insert_eq. }
  rewrite lookup_omap.
  destruct (blocksAt m !! k) as [q|] eqn:Hq; [|done]. simpl.
  rewrite !lookup_insert_ne; [done| |].
  - intros <-. apply Hfresh. by exists k.
  - intros <-. apply Hl. by apply (Hinj latest k prev).
Qed.

Lemma separate_insert_fresh h m p k :
  separate m → ¬ holds m p → is_Some (h !! p) →
  (∀ q, holds m q → is_Some (h !! q)) →
  separate (mkServiceMem h (<[k := p]> (blocksAt m))).
Proof.
  intros [Hinj Halloc] Hfresh Hp Hh. split; cbn [heap blocksAt].
  - intros k1 k2 q. rewrite !lookup_insert.
    repeat case_decide; subst.
    + done.
    + intros [= <-] Hq. destruct Hfresh. by exists k2.
    + intros Hq [= <-]. destruct Hfresh. by exists k1.
    + apply Hinj.
  - intros k1 q. rewrite lookup_insert. case_decide.
    + by intros [= <-].
    + intros Hq. apply Hh. by exists k1.
Qed.

Lemma ProposeSkipBlock_ptr_fresh m latest p rnd b :
  separate m → heap m !! p = Some b → ¬ holds m p →
  let rp := ProposeSkipBlock_ptr calcHash m latest p rnd in
  let rv := ProposeSkipBlock calcHash (view m) latest b rnd in
  view rp.1 = rv.1
  ∧ separate rp.1
  ∧ same_result (heap rp.1) p rp.2 rv.2
  ∧ (∀ q, q ≠ p → ¬ holds m q → heap rp.1 !! q = heap m !! q).
Proof.
  intros Hsep Hp Hfresh rp rv. subst rp rv.
  destruct (decide (length latest = 0%nat)) as [Hlen|Hlen].
  - rewrite (ProposeSkipBlock_ptr_genesis m latest p rnd b Hlen Hp).
    rewrite (SkipchainFacts.ProposeSkipBlock_genesis calcHash _ latest b rnd Hlen).
    cbn [fst snd].
    pose proof (view_genesisMem m p b rnd Hfresh) as Hview.
    split; [done|]. split.
    { apply separate_insert_fresh; [done|done|by rewrite lookup_insert_eq|].
      intros q [k Hq]. destruct Hsep as [_ Halloc].
      rewrite lookup_insert_ne; [by eapply Halloc|].
      intros <-. apply Hfresh. by exists k. }
    split.
    { unfold startPropagation_ptr, deref. cbn [heap genesisMem].
      rewrite lookup_insert_eq. cbn [bind_outcome].
      fold (genesisMem calcHash m p b rnd). rewrite Hview.
      destruct (startPropagation _ _); cbn; [|done].
      split; [done|]. split; [by rewrite lookup_insert_eq|done]. }
    intros q Hq _. cbn [heap genesisMem]. by rewrite lookup_insert_ne.
  - destruct (blocksAt m !! latest) as [prev|] eqn:Hlatest.
    2:{ assert (Hv : SkipBlocks (view m) !! latest = None)
          by (by rewrite lookup_view, Hlatest).
        unfold ProposeSkipBlock_ptr, ProposeSkipBlock.
        rewrite decide_False, Hlatest by done.
        rewrite decide_False, Hv by done. cbn [fst snd same_result].
        done. }
    assert (Hne : p ≠ prev) by (intros ->; apply Hfresh; by exists latest).
    destruct (proj2 Hsep _ _ Hlatest) as [pv Hprev].
    assert (Hv : SkipBlocks (view m) !! latest = Some pv)
      by (by rewrite lookup_view, Hlatest).
    destruct (decide (VerifierId pv = VerifyNone)) as [Hver|Hver].
    + rewrite (ProposeSkipBlock_ptr_next m latest prev p rnd pv b) by done.
      rewrite (SkipchainFacts.ProposeSkipBlock_next calcHash _ latest b rnd pv) by done.
      cbn [fst snd].
      pose proof (view_nextMem m latest prev p pv b Hsep Hfresh Hlatest Hprev) as Hview.
      split; [done|]. split.
      { apply separate_insert_fresh; [done|done| |].
        - by rewrite lookup_insert_ne, lookup_insert_eq.
        - intros q [k Hq]. rewrite lookup_insert. case_decide; [done|].
          rewrite lookup_insert_ne; [by eapply (proj2 Hsep)|].
          intros <-. apply Hfresh. by exists k. }
      split.
      { unfold startPropagation_ptr, deref. cbn [heap nextMem].
        rewrite lookup_insert_ne, lookup_insert_eq by done. cbn [bind_outcome].
        fold (nextMem calcHash m prev p pv b). rewrite Hview.
        destruct (startPropagation _ _); cbn; [|done].
        split; [done|].
        split; [by rewrite lookup_insert_ne, lookup_insert_eq|].
        split; [done|]. by rewrite lookup_insert_eq. }
      intros q Hq Hnh. cbn [heap nextMem].
      rewrite !lookup_insert_ne; [done..|].
      intros <-. apply Hnh. by exists latest.
    + rewrite (ProposeSkipBlock_ptr_refused m latest prev p rnd pv b) by done.
      unfold ProposeSkipBlock. rewrite decide_False, Hv by done.
      unfold verifyNewSkipBlock. cbn [VerifierId set_VerifierId].
      rewrite bool_decide_false by done. cbn [fst snd same_result heap].
      split; [by apply view_insert_fresh|].
      split.
      { destruct Hsep as [Hinj Halloc]. split; cbn [heap blocksAt]; [done|].
        intros k q Hq. rewrite lookup_insert. case_decide; [done|by eapply Halloc]. }
      split; [done|].
      intros q Hq _. by rewrite lookup_insert_ne.
Qed.

(** A call on a nil pointer panics and changes nothing. *)
Lemma ProposeSkipBlock_ptr_nil m latest p rnd :
  heap m !! p = None →
  ProposeSkipBlock_ptr calcHash m latest p rnd = (m, Panicked)
  ∨ ProposeSkipBlock_ptr calcHash m latest p rnd = (m, Returned (inl ErrLatestNotFound)).
Proof.
  intros Hp. unfold ProposeSkipBlock_ptr. rewrite Hp.
  case_decide; [by left|].
  destruct (blocksAt m !! latest); [by left|by right].
Qed.

(** One call on an object that the service does not hold: on the blocks
    as a reader sees them it is a call on the block that the object held, or
    it changes nothing. *)
Lemma fresh_step m latest p rnd :
  separate m → ¬ holds m p →
  separate (ProposeSkipBlock_ptr calcHash m latest p rnd).1
  ∧ (view (ProposeSkipBlock_ptr calcHash m latest p rnd).1 = view m
     ∨ ∃ b, view (ProposeSkipBlock_ptr calcHash m latest p rnd).1
            = (ProposeSkipBlock calcHash (view m) latest b rnd).1).
Proof.
  intros Hsep Hfresh.
  destruct (heap m !! p) as [b|] eqn:Hp.
  - destruct (ProposeSkipBlock_ptr_fresh m latest p rnd b Hsep Hp Hfresh) as (Hv & Hs & _).
    split; [done|]. right. by exists b.
  - destruct (ProposeSkipBlock_ptr_nil m latest p rnd Hp) as [-> | ->]; cbn [fst];
      (split; [done|by left]).
Qed.

(** A step of a caller, which leaves the objects alone that the service
    holds. *)
Lemma caller_step m h' :
  separate m → (∀ p, holds m p → h' !! p = heap m !! p) →
  separate (mkServiceMem h' (blocksAt m))
  ∧ view (mkServiceMem h' (blocksAt m)) = view m.
Proof.
  intros [Hinj Halloc] Hsame. split; [split; cbn [heap blocksAt]; [done|]|].
  - intros k p Hk. rewrite Hsame by (by exists k). by eapply Halloc.
  - unfold view. f_equal. cbn [heap blocksAt]. apply map_eq. intros k.
    rewrite !lookup_omap. destruct (blocksAt m !! k) as [q|] eqn:Hq; [|done].
    simpl. apply Hsame. by exists k.
Qed.

Lemma reachable_fresh_sound m :
  reachable_fresh calcHash m → separate m ∧ reachable calcHash (view m).
Proof.
  induction 1 as [h|m h' _ [IHs IHr] Hsame|m latest p rnd _ [IHs IHr] Hfresh].
  - split; [split|].
    + intros k1 k2 p. cbn. by rewrite lookup_empty.
    + intros k p. cbn. by rewrite lookup_empty.
    + unfold view, newServiceMem. cbn [heap blocksAt]. rewrite omap_empty.
      apply reachable_new.
  - destruct (caller_step m h' IHs Hsame) as [Hs ->]. done.
  - destruct (fresh_step m latest p rnd IHs Hfresh) as [Hs [-> | [b ->]]].
    + done.
    + split; [done|]. by apply reachable_propose.
Qed.

Lemma later_fresh_sound m m' :
  later_fresh calcHash m m' → separate m →
  separate m' ∧ later calcHash (view m) (view m').
Proof.
  induction 1 as [|m' h' _ IH Hsame|m' latest p rnd _ IH Hfresh]; intros Hsep.
  - split; [done|apply later_refl].
  - destruct (IH Hsep) as [IHs IHl].
    destruct (caller_step m' h' IHs Hsame) as [Hs ->]. done.
  - destruct (IH Hsep) as [IHs IHl].
    destruct (fresh_step m' latest p rnd IHs Hfresh) as [Hs [-> | [b ->]]].
    + done.
    + split; [done|]. by apply later_propose.
Qed.

(** A block that a reader finds under a key is the object behind the
    pointer held there. *)
Lemma lookup_view_Some m k b :
  SkipBlocks (view m) !! k = Some b ↔ ∃ q, blocksAt m !! k = Some q ∧ heap m !! q = Some b.
Proof.
  rewrite lookup_view. destruct (blocksAt m !! k) as [q|]; simpl.
  - split; [intros Hq; by exists q|by intros (q' & [= <-] & Hq)].
  - split; [done|by intros (q' & ? & _)].
Qed.

End Facts.

(** The first of the two objects proposed as the genesis block. *)
Lemma mem_g_genesis :
  mem_g = genesisMem fieldsHash mem_two obj1 (blankBlock [x67]) rnd0.
Proof.
  unfold mem_g.
  by rewrite (ProposeSkipBlock_ptr_genesis fieldsHash mem_two [] obj1 rnd0 (blankBlock [x67]))
    by (vm_compute; reflexivity).
Qed.

Lemma mem_g_reachable : reachable_fresh fieldsHash mem_g.
Proof.
  apply reachable_fresh_propose; [apply reachable_fresh_new|].
  intros [k Hk]. cbn in Hk. by rewrite lookup_empty in Hk.
Qed.

Lemma mem_g_not_holds : ¬ holds mem_g obj2.
Proof.
  rewrite mem_g_genesis. intros [k Hk].
  unfold genesisMem, mem_two, newServiceMem in Hk. cbn [blocksAt] in Hk.
  rewrite lookup_insert in Hk. case_decide.
  - assert (obj1 = obj2) by congruence. discriminate.
  - by rewrite lookup_empty in Hk.
Qed.

Lemma run_next_result :
  ProposeSkipBlock_ptr fieldsHash mem_g id_genesis obj2 []
  = (mem_next, Returned (inr (Some obj1, obj2))).
Proof.
  change (run_next = (run_next.1, Returned (inr (Some obj1, obj2)))).
  rewrite (surjective_pairing run_next) at 1. f_equal; vm_compute; reflexivity.
Qed.

(** C8, amended. From a state reached by calls of [ProposeSkipBlock] that
    each propose a block object which the service does not hold, the held
    objects being changed by nothing else, a successful proposal of such an
    object on a previous block (a reply with a previous block) finds under
    [latest] a block [pv] whose hash is [latest]; the new block [b] has
    [latest] as its one backlink and the index of [pv] plus one, and is held
    under its own hash; the forward links of the previous block become the
    one link that names [b] and carries no signature; and in every state
    that further such calls lead to, a block with hash [latest] is still
    held under [latest]. *)
Theorem ProposeSkipBlock_fresh_links (calcHash : SkipBlock → SkipBlockID)
    (m m' : ServiceMem) (latest : SkipBlockID) (proposed : ptr) (rnd : bytes)
    (prev : ptr) :
  reachable_fresh calcHash m →
  ¬ holds m proposed →
  ProposeSkipBlock_ptr calcHash m latest proposed rnd
    = (m', Returned (inr (Some prev, proposed))) →
  ∃ pv b,
    blocksAt m !! latest = Some prev
    ∧ heap m !! prev = Some pv
    ∧ Hash pv = latest
    ∧ heap m' !! proposed = Some b
    ∧ Index b = wrap_int (Index pv + 1)
    ∧ BackLink b = [latest]
    ∧ blocksAt m' !! Hash b = Some proposed
    ∧ heap m' !! prev = Some (set_ForwardLink [mkBlockLink (Hash b) None] pv)
    ∧ (Hash b ≠ latest → blocksAt m' !! latest = Some prev)
    ∧ ∀ m'', later_fresh calcHash m' m'' →
        ∃ q bq, blocksAt m'' !! latest = Some q ∧ heap m'' !! q = Some bq
                ∧ Hash bq = latest.
Proof.
  intros Hreach Hfresh Hrun.
  destruct (reachable_fresh_sound calcHash m Hreach) as [Hsep Hrv].
  pose proof (SkipchainFacts.reachable_well_keyed calcHash _ Hrv) as Hkeyed.
  assert (Hsep' : separate m' ∧ well_keyed calcHash (view m')).
  { destruct (fresh_step calcHash m latest proposed rnd Hsep Hfresh) as [Hs Hv].
    rewrite Hrun in Hs, Hv. cbn [fst] in Hs, Hv. split; [done|].
    destruct Hv as [-> | [b ->]]; [done|].
    by apply SkipchainFacts.well_keyed_propose. }
  destruct Hsep' as [Hsep' Hkeyed'].
  destruct (heap m !! proposed) as [b0|] eqn:Hp.
  2:{ destruct (ProposeSkipBlock_ptr_nil calcHash m latest proposed rnd Hp) as [E|E];
        rewrite E in Hrun; congruence. }
  destruct (decide (length latest = 0%nat)) as [Hlen|Hlen].
  { rewrite (ProposeSkipBlock_ptr_genesis calcHash m latest proposed rnd b0 Hlen Hp)
      in Hrun.
    assert (Hr : thenReturn
                   (startPropagation_ptr (genesisMem calcHash m proposed b0 rnd) proposed)
                   (@inr error _ (@None ptr, proposed))
                 = Returned (inr (Some prev, proposed))) by congruence.
    apply SkipchainFacts.thenReturn_Returned in Hr. congruence. }
  destruct (blocksAt m !! latest) as [prev'|] eqn:Hlatest.
  2:{ unfold ProposeSkipBlock_ptr in Hrun.
      rewrite decide_False, Hlatest in Hrun by done. congruence. }
  assert (Hne : proposed ≠ prev') by (intros ->; apply Hfresh; by exists latest).
  destruct (proj2 Hsep _ _ Hlatest) as [pv Hprev].
  destruct (decide (VerifierId pv = VerifyNone)) as [Hver|Hver].
  2:{ rewrite (ProposeSkipBlock_ptr_refused calcHash m latest prev' proposed rnd pv b0)
        in Hrun by done. congruence. }
  rewrite (ProposeSkipBlock_ptr_next calcHash m latest prev' proposed rnd pv b0)
    in Hrun by done.
  assert (Hm' : m' = nextMem calcHash m prev' proposed pv b0) by congruence.
  assert (Hr : thenReturn
                 (startPropagation_ptr (nextMem calcHash m prev' proposed pv b0) proposed)
                 (@inr error _ (Some prev', proposed))
               = Returned (inr (Some prev, proposed))) by congruence.
  apply SkipchainFacts.thenReturn_Returned in Hr.
  assert (Hpp : prev = prev') by congruence. subst prev'. clear Hr Hrun.
  assert (Hv : SkipBlocks (view m) !! latest = Some pv).
  { apply lookup_view_Some. by exists prev. }
  destruct (Hkeyed _ _ Hv) as [Hh Hk].
  exists pv, (nextBlock calcHash pv b0).
  split; [done|]. split; [done|]. split; [done|].
  subst m'. cbn [heap blocksAt nextMem].
  split; [by rewrite lookup_insert_ne, lookup_insert_eq|].
  split; [done|].
  split; [cbn; by rewrite <- Hk|].
  split; [by rewrite lookup_insert_eq|].
  split.
  { rewrite lookup_insert_eq. unfold linkedPrev.
    by rewrite <- Hk, <- Hh, SkipchainFacts.set_Hash_id. }
  split; [intros Hb; by rewrite lookup_insert_ne|].
  intros m'' Hlater.
  destruct (later_fresh_sound calcHash _ m'' Hlater Hsep') as [_ Hl].
  assert (Hnew : is_Some (SkipBlocks (view (nextMem calcHash m prev proposed pv b0))
                            !! latest)).
  { rewrite (view_nextMem calcHash m latest prev proposed pv b0) by done.
    unfold nextStore. cbn [SkipBlocks]. rewrite lookup_insert. case_decide; [done|].
    by rewrite lookup_insert_eq. }
  destruct (SkipchainFacts.later_keeps_keys calcHash _ _ latest Hl Hnew) as [bq Hbq].
  destruct (SkipchainFacts.later_well_keyed calcHash _ _ Hl Hkeyed' _ _ Hbq) as [Hhq _].
  apply lookup_view_Some in Hbq as (q & Hq & Hbq). by exists q, bq.
Qed.

Lemma ProposeSkipBlock_fresh_links_witness :
  ∃ pv b,
    blocksAt mem_g !! id_genesis = Some obj1
    ∧ heap mem_g !! obj1 = Some pv
    ∧ Hash pv = id_genesis
    ∧ heap mem_next !! obj2 = Some b
    ∧ BackLink b = [id_genesis]
    ∧ blocksAt mem_next !! Hash b = Some obj2
    ∧ heap mem_next !! obj1 = Some (set_ForwardLink [mkBlockLink (Hash b) None] pv).
Proof.
  destruct (ProposeSkipBlock_fresh_links fieldsHash mem_g mem_next id_genesis obj2 [] obj1
              mem_g_reachable mem_g_not_holds run_next_result)
    as (pv & b & H1 & H2 & H3 & H4 & _ & H6 & H7 & H8 & _).
  exists pv, b. repeat split; assumption.
Defined.

(** X9. In a state reached by calls of [ProposeSkipBlock] that each propose
    an object which the service does not hold, no object is held under two
    keys, and every block is held under the hash it carries, which is the
    digest of its hashed fields, has height 1 and exactly one backlink, and
    has the verifier [VerifyNone]. *)
Theorem reachable_fresh_blocks_well_formed (calcHash : SkipBlock → SkipBlockID)
    (m : ServiceMem) (k : SkipBlockID) (p : ptr) :
  reachable_fresh calcHash m →
  blocksAt m !! k = Some p →
  (∀ k', blocksAt m !! k' = Some p → k' = k)
  ∧ ∃ b, heap m !! p = Some b
         ∧ Hash b = k
         ∧ k = calcHash (hashed b)
         ∧ Height b = 1
         ∧ length (BackLink b) = 1%nat
         ∧ VerifierId b = VerifyNone.
Proof.
  intros Hreach Hk.
  destruct (reachable_fresh_sound calcHash m Hreach) as [[Hinj Halloc] Hrv].
  split; [intros k' Hk'; by apply (Hinj k' k p)|].
  destruct (Halloc _ _ Hk) as [b Hb]. exists b. split; [done|].
  apply (SkipchainCallsFacts.reachable_wf calcHash _ Hrv).
  apply lookup_view_Some. by exists p.
Qed.

Lemma reachable_fresh_blocks_well_formed_witness :
  ∃ b, heap mem_next !! obj2 = Some b ∧ Hash b = fieldsHash (hashed b) ∧ Height b = 1.
Proof.
  destruct (reachable_fresh_blocks_well_formed fieldsHash mem_next
              (Hash (nextBlock fieldsHash (genesisBlock fieldsHash (blankBlock [x67]) rnd0)
                               (blankBlock [x31]))) obj2)
    as (_ & b & Hb & Hh & Hk & Hht & _).
  - apply reachable_fresh_propose; [exact mem_g_reachable|exact mem_g_not_holds].
  - vm_compute. reflexivity.
  - exists b. split; [exact Hb|]. split; [congruence|exact Hht].
Defined.

(** X11. [ProposeSkipBlock] on an object that the service does not hold
    never takes a key out of [SkipBlocks], changes no object other than the
    proposed one and the one held under [latest], and changes at most one
    entry of [SkipBlocks]: the one that receives the proposed object, held
    under the hash it now carries, with the body, the parent and the
    forward links it came with. *)
Theorem ProposeSkipBlock_fresh_frame (calcHash : SkipBlock → SkipBlockID)
    (m : ServiceMem) (latest : SkipBlockID) (proposed : ptr) (rnd : bytes)
    (b0 : SkipBlock) (k : SkipBlockID) :
  separate m →
  heap m !! proposed = Some b0 →
  ¬ holds m proposed →
  let m' := (ProposeSkipBlock_ptr calcHash m latest proposed rnd).1 in
  (is_Some (blocksAt m !! k) → is_Some (blocksAt m' !! k))
  ∧ (∀ q, q ≠ proposed → blocksAt m !! latest ≠ Some q → heap m' !! q = heap m !! q)
  ∧ (blocksAt m' !! k = blocksAt m !! k
     ∨ ∃ b, blocksAt m' !! k = Some proposed
            ∧ heap m' !! proposed = Some b
            ∧ Hash b = k
            ∧ Body b = Body b0
            ∧ ParentBlock b = ParentBlock b0
            ∧ ForwardLink b = ForwardLink b0).
Proof.
  intros Hsep Hp Hfresh m'. subst m'.
  destruct (decide (length latest = 0%nat)) as [Hlen|Hlen].
  { rewrite (ProposeSkipBlock_ptr_genesis calcHash m latest proposed rnd b0 Hlen Hp).
    cbn [fst heap blocksAt genesisMem].
    split; [rewrite lookup_insert; by case_decide|].
    split; [intros q Hq _; by rewrite lookup_insert_ne|].
    rewrite lookup_insert. case_decide as Hk; [|by left].
    right. eexists. split; [done|]. split; [by rewrite lookup_insert_eq|].
    by subst k. }
  destruct (blocksAt m !! latest) as [prev|] eqn:Hlatest.
  2:{ unfold ProposeSkipBlock_ptr. rewrite decide_False, Hlatest by done.
      cbn [fst]. split; [done|]. split; [done|]. by left. }
  assert (Hne : proposed ≠ prev) by (intros ->; apply Hfresh; by exists latest).
  destruct (proj2 Hsep _ _ Hlatest) as [pv Hprev].
  destruct (decide (VerifierId pv = VerifyNone)) as [Hver|Hver].
  - rewrite (ProposeSkipBlock_ptr_next calcHash m latest prev proposed rnd pv b0) by done.
    cbn [fst heap blocksAt nextMem].
    split; [rewrite lookup_insert; by case_decide|].
    split.
    { intros q Hq Hq'. rewrite !lookup_insert_ne; [done..|]. congruence. }
    rewrite lookup_insert. case_decide as Hk; [|by left].
    right. eexists. split; [done|].
    split; [by rewrite lookup_insert_ne, lookup_insert_eq|]. by subst k.
  - rewrite (ProposeSkipBlock_ptr_refused calcHash m latest prev proposed rnd pv b0)
      by done.
    cbn [fst heap blocksAt].
    split; [done|]. split; [intros q Hq _; by rewrite lookup_insert_ne|]. by left.
Qed.

Lemma ProposeSkipBlock_fresh_frame_witness :
  blocksAt mem_next !! id_genesis = blocksAt mem_g !! id_genesis
  ∨ ∃ b, blocksAt mem_next !! id_genesis = Some obj2
         ∧ heap mem_next !! obj2 = Some b
         ∧ Hash b = id_genesis
         ∧ Body b = Body (blankBlock [x31])
         ∧ ParentBlock b = ParentBlock (blankBlock [x31])
         ∧ ForwardLink b = ForwardLink (blankBlock [x31]).
Proof.
  apply (ProposeSkipBlock_fresh_frame fieldsHash mem_g id_genesis obj2 []
           (blankBlock [x31]) id_genesis).
  - apply (reachable_fresh_sound fieldsHash), mem_g_reachable.
  - vm_compute. reflexivity.
  - exact mem_g_not_holds.
Defined.

(** X18. On a block object that the service does not hold, in a memory
    where no object is held under two keys, [ProposeSkipBlock] does what the
    call on a copy of the block does: it ends the same way (the same reply,
    the same error, or a panic), the pointers of the reply lead to the blocks
    of the reply, a reader of [SkipBlocks] finds the same blocks under the
    same keys afterwards, still no object is held under two keys, and the
    objects that are neither proposed nor held are left alone. *)
Theorem ProposeSkipBlock_ptr_agrees (calcHash : SkipBlock → SkipBlockID)
    (m : ServiceMem) (latest : SkipBlockID) (proposed : ptr) (rnd : bytes)
    (b : SkipBlock) :
  separate m →
  heap m !! proposed = Some b →
  ¬ holds m proposed →
  let rp := ProposeSkipBlock_ptr calcHash m latest proposed rnd in
  let rv := ProposeSkipBlock calcHash (view m) latest b rnd in
  view rp.1 = rv.1
  ∧ separate rp.1
  ∧ same_result (heap rp.1) proposed rp.2 rv.2
  ∧ (∀ q, q ≠ proposed → ¬ holds m q → heap rp.1 !! q = heap m !! q).
Proof. apply ProposeSkipBlock_ptr_fresh. Qed.

Lemma ProposeSkipBlock_ptr_agrees_witness :
  view mem_next = (ProposeSkipBlock fieldsHash (view mem_g) id_genesis (blankBlock [x31]) []).1
  ∧ separate mem_next.
Proof.
  destruct (ProposeSkipBlock_ptr_agrees fieldsHash mem_g id_genesis obj2 [] (blankBlock [x31]))
    as (Hview & Hsep & _).
  - apply (reachable_fresh_sound fieldsHash), mem_g_reachable.
  - vm_compute. reflexivity.
  - exact mem_g_not_holds.
  - split; [exact Hview|exact Hsep].
Defined.


End SkipchainMemFacts.
